(** * Retrying block reader, fallback decompression and error fan-in

    A shallow embedding of [backupstore/util.go]:
    [backoffDuration], [readBlockWithRetry],
    [DecompressAndVerifyWithFallback], [mergeErrorChannels],
    [getBlockPath], [getBlockFilePath] and
    [getBlockSizeFromParameters]. *)

From Equations Require Import Equations.
From Stdlib Require Import List Arith ZArith Lia String Ascii Bool.
From Stdlib Require Import DecimalString Permutation.
Import ListNotations.

Local Open Scope string_scope.
Local Open Scope list_scope.

(** ** Go values *)

(** [time.Duration] is an [int64] count of nanoseconds. *)
Definition Duration := Z.

Module time.
Definition Nanosecond : Duration := 1%Z.
Definition Microsecond : Duration := (1000 * Nanosecond)%Z.
Definition Millisecond : Duration := (1000 * Microsecond)%Z.
Definition Second : Duration := (1000 * Millisecond)%Z.
Definition Minute : Duration := (60 * Second)%Z.
Definition Hour : Duration := (60 * Minute)%Z.
End time.

(** A format string with its arguments in place: literal text, a
    string argument of [%v] or [%s], an [int] argument of [%d]. *)
Inductive piece : Type :=
| Lit (text : string)
| ArgV (s : string)
| ArgD (n : nat).

(** A Go [error]: a leaf error carrying its text, or one of the two
    layers [errors.Wrapf] puts around its cause: the message prefix,
    and the stack trace around that. *)
Inductive error : Type :=
| errNew (msg : string)
| withPrefix (cause : error) (prefix : list piece)
| withStack (cause : error).

(** [errors.Wrapf(err, format, args...)] of [cockroachdb/errors] for
    a non-nil [err] and arguments that are no errors: the prefix
    layer around the cause, the stack layer around the prefix. *)
Definition Wrapf (err : error) (prefix : list piece) : error :=
  withStack (withPrefix err prefix).

(** [errors.Wrapf(err, msg)], a format without arguments. *)
Definition errWrap (cause : error) (msg : string) : error :=
  Wrapf cause [Lit msg].

(** [errors.Unwrap]: one layer down. *)
Definition Unwrap (e : error) : option error :=
  match e with
  | errNew _ => None
  | withPrefix cause _ => Some cause
  | withStack cause => Some cause
  end.

(** A Go result pair [(v, err)]: [Ok v] stands for [(v, nil)] and
    [Err e] for [(nil, e)]. *)
Inductive Result (A : Type) : Type :=
| Ok (v : A)
| Err (e : error).
Arguments Ok {A} v.
Arguments Err {A} e.

(** [%d] of a non-negative [int]. *)
Definition fmt_d (n : nat) : string := NilZero.string_of_uint (Nat.to_uint n).

(** [strings.Contains(s, substr)]. *)
Fixpoint Contains (s substr : string) : bool :=
  if String.prefix substr s then true
  else match s with
       | EmptyString => false
       | String _ s' => Contains s' substr
       end.

(** An [io.ReadCloser] handed out by the backend: a handle naming the
    stream and the raw bytes it yields. *)
Record ReadCloser : Type := mkReadCloser {
  rc_handle : nat;
  rc_bytes : string
}.

(** The [io.Reader] over verified, decompressed content. *)
Record Reader : Type := mkReader {
  r_bytes : string
}.

(** ** The world the functions run in *)

(** Observable effects, in program order. *)
Inductive event : Type :=
| EvRead (blkFile : string) (res : Result ReadCloser)
| EvSleep (dur : Duration)
| EvDecompressAndVerify (method : string) (rc : ReadCloser)
    (checksum : string) (res : Result Reader)
| EvClose (rc : ReadCloser).

(** The [BackupStoreDriver] interface, restricted to the method this
    file calls.  A driver is stateful: [Read] returns its result and
    the driver's next state. *)
Class BackupStoreDriver (D : Type) : Type := {
  Read : D -> string -> Result ReadCloser * D
}.

(** The package-level variable [backoffDuration] is part of the
    state; the driver lives in another package and cannot reach it. *)
Record World (D : Type) : Type := mkWorld {
  bsDriver : D;
  backoffDuration : list Duration;
  trace : list event
}.
Arguments mkWorld {D} _ _ _.
Arguments bsDriver {D} _.
Arguments backoffDuration {D} _.
Arguments trace {D} _.

(** The initialiser of [backoffDuration]. *)
Definition backoffDuration_init : list Duration :=
  [ time.Second;
    5 * time.Second;
    30 * time.Second;
    2 * time.Minute;
    5 * time.Minute;
    15 * time.Minute;
    30 * time.Minute;
    1 * time.Hour;
    2 * time.Hour;
    6 * time.Hour ]%Z.

(** State-passing computations over the world. *)
Definition M (D A : Type) : Type := World D -> A * World D.

Definition ret {D A} (a : A) : M D A := fun w => (a, w).

Definition bind {D A B} (m : M D A) (k : A -> M D B) : M D B :=
  fun w => let (a, w') := m w in k a w'.

Notation "x <- m ;; k" := (bind m (fun x => k))
  (at level 61, m at next level, right associativity).
Notation "m ;;; k" := (bind m (fun _ => k))
  (at level 61, right associativity).

Definition emit {D} (e : event) : M D unit :=
  fun w => (tt, mkWorld (bsDriver w) (backoffDuration w) (trace w ++ [e])).

(** [bsDriver.Read(blkFile)]. *)
Definition driverRead {D} `{BackupStoreDriver D} (blkFile : string)
  : M D (Result ReadCloser) :=
  fun w =>
    let (res, d') := Read (bsDriver w) blkFile in
    (res, mkWorld d' (backoffDuration w) (trace w ++ [EvRead blkFile res])).

(** [time.Sleep(dur)]. *)
Definition Sleep {D} (dur : Duration) : M D unit := emit (EvSleep dur).

(** [rc.Close()]; its error is discarded by every caller here. *)
Definition Close {D} (rc : ReadCloser) : M D unit := emit (EvClose rc).

(** [errors.Wrapf(err, "failed to read block %v after %d attempts",
    blkFile, n)]. *)
Definition wrap_read_failed (err : error) (blkFile : string) (n : nat) : error :=
  Wrapf err [Lit "failed to read block "; ArgV blkFile; Lit " after "; ArgD n;
             Lit " attempts"].

(** ** readBlockWithRetry *)

Definition inspect {A} (a : A) : {b : A | a = b} := exist _ a eq_refl.

(** The body of the [for] loop, entered with the current value of
    [attempts].  The loop ends because [attempts] only grows, a retry
    needs [attempts < len(backoffDuration)], and nothing on the way
    changes the array. *)
Equations? readBlockWithRetry_loop {D} `{BackupStoreDriver D}
  (blkFile : string) (attempts : nat) (w : World D)
  : Result ReadCloser * World D
  by wf (List.length (backoffDuration w) - attempts) lt :=
  readBlockWithRetry_loop blkFile attempts w
    with inspect (driverRead blkFile w) => {
    | exist _ (Ok rc, w1) _ := (Ok rc, w1);
    | exist _ (Err err, w1) Hread
        with lt_dec attempts (List.length (backoffDuration w1)) => {
        | left _ :=
            let dur := nth attempts (backoffDuration w1) 0%Z in
            readBlockWithRetry_loop blkFile (attempts + 1) (snd (Sleep dur w1));
        | right _ :=
            (Err (wrap_read_failed err blkFile (attempts + 1)), w1) } }.
Proof.
  unfold driverRead in Hread.
  destruct (Read (bsDriver w) blkFile) as [res d'].
  injection Hread as _ <-. simpl in *. lia.
Qed.

(** [readBlockWithRetry(bsDriver, blkFile)]: [attempts := 0], then the loop. *)
Definition readBlockWithRetry {D} `{BackupStoreDriver D} (blkFile : string)
  : M D (Result ReadCloser) :=
  readBlockWithRetry_loop blkFile 0.

(** ** DecompressAndVerifyWithFallback *)

(** What the function imports from outside this file:
    [gzip.ErrHeader] of the Go standard library,
    [util.DecompressAndVerify] of the sibling package [util], and the
    way [cockroachdb/errors] prints a string argument of a format
    (it does not print every string as it is).  All three are taken
    as parameters.  [DecompressAndVerify] consumes the stream it is
    given, so its result is a function of the method, the stream and
    the expected checksum. *)
Class External : Type := {
  gzip_ErrHeader : error;
  DecompressAndVerify : string -> ReadCloser -> string -> Result Reader;
  fmt_v : string -> string
}.

(** The text of a message prefix. *)
Definition render_piece `{External} (p : piece) : string :=
  match p with
  | Lit text => text
  | ArgV s => fmt_v s
  | ArgD n => fmt_d n
  end.

Definition render `{External} (prefix : list piece) : string :=
  fold_right append "" (map render_piece prefix).

(** [err.Error()]: the stack layer prints as its cause, the prefix
    layer as "prefix: cause", or as its cause when the prefix is
    empty. *)
Fixpoint Error `{External} (e : error) : string :=
  match e with
  | errNew msg => msg
  | withPrefix cause prefix =>
    if (render prefix =? "")%string then Error cause
    else (render prefix ++ ": " ++ Error cause)%string
  | withStack cause => Error cause
  end.

(** [util.DecompressAndVerify(method, rc, checksum)] as an effect. *)
Definition callDecompressAndVerify {D} `{External}
  (method : string) (rc : ReadCloser) (checksum : string)
  : M D (Result Reader) :=
  fun w =>
    let res := DecompressAndVerify method rc checksum in
    (res, snd (emit (EvDecompressAndVerify method rc checksum res) w)).

(** Lines 115-120: the alternative method chosen from the first
    failure; the empty string when there is none. *)
Definition alternativeDecompression `{External} (err : error) : string :=
  if Contains (Error err) (Error gzip_ErrHeader) then "lz4"
  else if Contains (Error err) "lz4: bad magic number" then "gzip"
  else "".

(** [errors.Wrapf(err, "fallback decompression also failed for block
    %v", blkFile)]. *)
Definition wrap_fallback_failed (err : error) (blkFile : string) : error :=
  Wrapf err [Lit "fallback decompression also failed for block "; ArgV blkFile].

(** [errors.Wrapf(err, "decompression verification failed for block
    %v", blkFile)]. *)
Definition wrap_verification_failed (err : error) (blkFile : string) : error :=
  Wrapf err [Lit "decompression verification failed for block "; ArgV blkFile].

(** Deferred calls run when the function returns, last registered
    first.  The stack is kept with the latest [defer] at its head. *)
Fixpoint run_deferred {D} (stack : list (M D unit)) : M D unit :=
  match stack with
  | [] => ret tt
  | f :: rest => f ;;; run_deferred rest
  end.

(** The function body up to its [return]: the returned pair and the
    defer stack at that point. *)
Definition DecompressAndVerifyWithFallback_body {D}
  `{BackupStoreDriver D} `{External}
  (blkFile decompression checksum : string)
  : M D (Result Reader * list (M D unit)) :=
  res <- readBlockWithRetry blkFile ;;
  match res with
  | Err err => ret (Err err, [])
  | Ok rc =>
    let deferred := [Close rc] in
    res <- callDecompressAndVerify decompression rc checksum ;;
    match res with
    | Ok r => ret (Ok r, deferred)
    | Err err =>
      let alt := alternativeDecompression err in
      if negb (alt =? "") then
        res <- readBlockWithRetry blkFile ;;
        match res with
        | Err err => ret (Err err, deferred)
        | Ok retriedRc =>
          let deferred := Close retriedRc :: deferred in
          res <- callDecompressAndVerify alt retriedRc checksum ;;
          match res with
          | Err err => ret (Err (wrap_fallback_failed err blkFile), deferred)
          | Ok r => ret (Ok r, deferred)
          end
        end
      else ret (Err (wrap_verification_failed err blkFile), deferred)
    end
  end.

Definition DecompressAndVerifyWithFallback {D}
  `{BackupStoreDriver D} `{External}
  (blkFile decompression checksum : string) : M D (Result Reader) :=
  out <- DecompressAndVerifyWithFallback_body blkFile decompression checksum ;;
  run_deferred (snd out) ;;;
  ret (fst out).

(** ** Reading a trace *)

(** Streams handed out by successful [Read] calls. *)
Fixpoint acquired (tr : list event) : list ReadCloser :=
  match tr with
  | [] => []
  | EvRead _ (Ok rc) :: tr' => rc :: acquired tr'
  | _ :: tr' => acquired tr'
  end.

(** Number of [Read] calls. *)
Fixpoint read_attempts (tr : list event) : nat :=
  match tr with
  | [] => 0
  | EvRead _ _ :: tr' => S (read_attempts tr')
  | _ :: tr' => read_attempts tr'
  end.

Fixpoint sleeps (tr : list event) : list Duration :=
  match tr with
  | [] => []
  | EvSleep dur :: tr' => dur :: sleeps tr'
  | _ :: tr' => sleeps tr'
  end.

(** Decompress-and-verify attempts: the method and the stream used. *)
Fixpoint decompressions (tr : list event) : list (string * ReadCloser) :=
  match tr with
  | [] => []
  | EvDecompressAndVerify method rc _ _ :: tr' => (method, rc) :: decompressions tr'
  | _ :: tr' => decompressions tr'
  end.

Fixpoint closed (tr : list event) : list ReadCloser :=
  match tr with
  | [] => []
  | EvClose rc :: tr' => rc :: closed tr'
  | _ :: tr' => closed tr'
  end.

(** ** Test doubles *)

(** A driver that replays a script of results, one per [Read], and
    answers [fallback] once the script is used up. *)
Record ScriptedDriver : Type := mkScripted {
  script : list (Result ReadCloser);
  fallback : Result ReadCloser
}.

#[export] Instance ScriptedDriver_driver : BackupStoreDriver ScriptedDriver := {
  Read d blkFile :=
    match script d with
    | [] => (fallback d, d)
    | res :: rest => (res, mkScripted rest (fallback d))
    end
}.

(** A two-codec stand-in for [util.DecompressAndVerify]: a gzip
    stream starts with "GZ", an lz4 stream with "LZ", and the digest
    of a block is the block itself. *)
Definition toyDecompressAndVerify (method : string) (rc : ReadCloser)
  (checksum : string) : Result Reader :=
  let header := substring 0 2 (rc_bytes rc) in
  let block := substring 2 (String.length (rc_bytes rc) - 2) (rc_bytes rc) in
  if method =? "gzip" then
    if header =? "GZ" then
      if block =? checksum then Ok (mkReader block)
      else Err (errNew "checksum verification failed for block")
    else Err (errWrap (errNew "gzip: invalid header")
                "failed to get decompression reader with method gzip")
  else if method =? "lz4" then
    if header =? "LZ" then
      if block =? checksum then Ok (mkReader block)
      else Err (errNew "checksum verification failed for block")
    else Err (errWrap (errNew "lz4: bad magic number")
                "failed to read decompressed data")
  else Err (errNew "unsupported decompression method").

(** A stand-in for the printing of a string argument: the marker
    runes U+2039 and U+203A (three bytes each in UTF-8) come out as a
    question mark, every other byte as it is. *)
Fixpoint escape_markers (s : string) : string :=
  match s with
  | EmptyString => EmptyString
  | String a s1 =>
    match s1 with
    | String b (String c rest) =>
      if ((a =? "226")%char && (b =? "128")%char
          && ((c =? "185")%char || (c =? "186")%char))%bool
      then String "?" (escape_markers rest)
      else String a (escape_markers s1)
    | _ => String a (escape_markers s1)
    end
  end.

(** A block file name that holds the two marker runes: "a", U+2039,
    "b", U+203A, "c". *)
Definition marked_blk : string :=
  String "a" (String "226" (String "128" (String "185"
    (String "b" (String "226" (String "128" (String "186" "c"))))))).

Definition toyExternal : External := {|
  gzip_ErrHeader := errNew "gzip: invalid header";
  DecompressAndVerify := toyDecompressAndVerify;
  fmt_v := escape_markers
|}.

Definition timeout_err : error := errNew "i/o timeout".

Definition world0 (d : ScriptedDriver) : World ScriptedDriver :=
  mkWorld d backoffDuration_init [].

(** A decompressor that rejects every stream with a text holding both
    signatures. *)
Definition rejectingExternal : External := {|
  gzip_ErrHeader := errNew "gzip: invalid header";
  DecompressAndVerify := fun _ _ _ =>
    Err (errNew "gzip: invalid header (lz4: bad magic number)");
  fmt_v := escape_markers
|}.

(** Two streams of the same lz4 block, and one of a gzip block. *)
Definition rc_lz4_1 : ReadCloser := mkReadCloser 1 "LZabc".
Definition rc_lz4_2 : ReadCloser := mkReadCloser 2 "LZabc".
Definition rc_gzip_1 : ReadCloser := mkReadCloser 1 "GZabc".

(** Calls into this file, and a program as a sequence of them. *)
Inductive call : Type :=
| CallReadBlockWithRetry (blkFile : string)
| CallDecompressAndVerifyWithFallback (blkFile decompression checksum : string).

Definition run_call {D} `{BackupStoreDriver D} `{External} (c : call)
  (w : World D) : World D :=
  match c with
  | CallReadBlockWithRetry blkFile => snd (readBlockWithRetry blkFile w)
  | CallDecompressAndVerifyWithFallback blkFile decompression checksum =>
    snd (DecompressAndVerifyWithFallback blkFile decompression checksum w)
  end.

Fixpoint run_calls {D} `{BackupStoreDriver D} `{External} (cs : list call)
  (w : World D) : World D :=
  match cs with
  | [] => w
  | c :: cs' => run_calls cs' (run_call c w)
  end.

(** The results of [n] successive [Read] calls on [blkFile], and the
    driver state they leave. *)
Fixpoint driverReads {D} `{BackupStoreDriver D} (n : nat) (blkFile : string)
  (d : D) : list (Result ReadCloser) * D :=
  match n with
  | O => ([], d)
  | S n' =>
    let (res, d') := Read d blkFile in
    let (rest, d'') := driverReads n' blkFile d' in
    (res :: rest, d'')
  end.

(** The events of a run of failed attempts, each followed by its
    sleep. *)
Fixpoint retry_events (blkFile : string) (errs : list error)
  (durs : list Duration) : list event :=
  match errs, durs with
  | err :: errs', dur :: durs' =>
    EvRead blkFile (Err err) :: EvSleep dur :: retry_events blkFile errs' durs'
  | _, _ => []
  end.

(** The events a computation appended to the trace. *)
Definition events_since {D} (w w' : World D) : list event :=
  skipn (List.length (trace w)) (trace w').

(** ** mergeErrorChannels *)

(** An input channel as its forwarder can find it.  Every channel of
    an error channel set delivers at most one value: its producer
    either sends one error or closes the channel. *)
Inductive Source : Type :=
| WillEmit (err : error)   (* the producer has not sent [err] yet *)
| Emitted (err : error)    (* [err] can be received *)
| Taken                    (* the value was received; nothing follows *)
| WillClose                (* the producer has not closed the channel yet *)
| Closed.                  (* closed, no value *)

(** Program points of a goroutine [output(c)]. *)
Inductive Forwarder : Type :=
| AtSelect                 (* line 44: in the [select] *)
| AtSend (err : error)     (* line 47: at [out <- err] *)
| AtReturn                 (* at [return]: the deferred [wg.Done()] is due *)
| Returned.

(** Program points of the goroutine that closes [out]. *)
Inductive Closer : Type :=
| AtWait                   (* line 60: in [wg.Wait()] *)
| AtClose                  (* line 61: at [close(out)] *)
| Finished.

(** An input channel with the goroutine spawned for it. *)
Record lane : Type := mkLane {
  src : Source;
  fwd : Forwarder
}.

Record MergeState : Type := mkState {
  ctx_done : bool;           (* [ctx.Done()] is closed *)
  lanes : list lane;
  wg : nat;                  (* the [sync.WaitGroup] counter *)
  closer : Closer;
  out_cap : nat;             (* capacity of [out] *)
  out_buf : list error;      (* values buffered in [out], oldest first *)
  out_closes : nat;          (* how often [close(out)] has run *)
  delivered : list error;    (* values the consumer has received from [out] *)
  panicked : bool
}.

(** The state [mergeErrorChannels(ctx, channels...)] leaves when it
    returns [out]: the counter raised by [wg.Add(len(channels))], the
    channel made by [make(chan error, len(channels))], one goroutine
    [output(c)] per channel and the closing goroutine, none of which
    has run yet. *)
Definition mergeErrorChannels (ctx_is_done : bool) (channels : list Source)
  : MergeState :=
  mkState ctx_is_done
    (map (fun c => mkLane c AtSelect) channels)
    (List.length channels)
    AtWait
    (List.length channels)
    []
    0
    []
    false.

(** Replace the element at an index. *)
Fixpoint update {A} (i : nat) (x : A) (l : list A) : list A :=
  match l, i with
  | [], _ => []
  | _ :: l', O => x :: l'
  | y :: l', S i' => y :: update i' x l'
  end.

Definition set_lane (i : nat) (l : lane) (s : MergeState) : MergeState :=
  mkState (ctx_done s) (update i l (lanes s)) (wg s) (closer s) (out_cap s)
    (out_buf s) (out_closes s) (delivered s) (panicked s).

Definition set_closer (c : Closer) (s : MergeState) : MergeState :=
  mkState (ctx_done s) (lanes s) (wg s) c (out_cap s)
    (out_buf s) (out_closes s) (delivered s) (panicked s).

Definition panic (s : MergeState) : MergeState :=
  mkState (ctx_done s) (lanes s) (wg s) (closer s) (out_cap s)
    (out_buf s) (out_closes s) (delivered s) true.

(** What can happen next: a step of one goroutine, of a producer, of
    the owner of [ctx], or of the consumer of [out].  A [select] with
    several ready cases takes any of them, so the case is part of the
    step. *)
Inductive action : Type :=
| EnvCancel                (* [ctx] is cancelled *)
| EnvProduce (i : nat)     (* the producer of channel [i] sends or closes *)
| FwdRecv (i : nat)        (* [select] takes [case err, ok := <-c] *)
| FwdDone (i : nat)        (* [select] takes [case <-ctx.Done()] *)
| FwdSend (i : nat)        (* [out <- err] *)
| FwdReturn (i : nat)      (* the deferred [wg.Done()] *)
| CloserWait               (* [wg.Wait()] returns *)
| CloserClose              (* [close(out)] *)
| Consume.                 (* the consumer receives from [out] *)

Definition exec_lane (a : action) (i : nat) (l : lane) (s : MergeState)
  : option MergeState :=
  match a, fwd l, src l with
  | EnvProduce _, _, WillEmit err => Some (set_lane i (mkLane (Emitted err) (fwd l)) s)
  | EnvProduce _, _, WillClose => Some (set_lane i (mkLane Closed (fwd l)) s)
  | FwdRecv _, AtSelect, Emitted err =>
    (* ok is true: go on to the send *)
    Some (set_lane i (mkLane Taken (AtSend err)) s)
  | FwdRecv _, AtSelect, Closed =>
    (* ok is false: return *)
    Some (set_lane i (mkLane Closed AtReturn) s)
  | FwdDone _, AtSelect, c =>
    if ctx_done s then Some (set_lane i (mkLane c AtReturn) s) else None
  | FwdSend _, AtSend err, c =>
    if (0 <? out_closes s)%nat then Some (panic s)   (* send on a closed channel *)
    else if (List.length (out_buf s) <? out_cap s)%nat then
      Some (mkState (ctx_done s) (update i (mkLane c AtReturn) (lanes s))
              (wg s) (closer s) (out_cap s) (out_buf s ++ [err])
              (out_closes s) (delivered s) (panicked s))
    else None                                  (* the buffer is full: blocked *)
  | FwdReturn _, AtReturn, c =>
    match wg s with
    | O => Some (panic s)                      (* negative WaitGroup counter *)
    | S k =>
      Some (mkState (ctx_done s) (update i (mkLane c Returned) (lanes s))
              k (closer s) (out_cap s) (out_buf s)
              (out_closes s) (delivered s) (panicked s))
    end
  | _, _, _ => None
  end.

(** One step; [None] when the step cannot be taken in this state.  A
    panic ends the program. *)
Definition exec (a : action) (s : MergeState) : option MergeState :=
  if panicked s then None
  else
    match a with
    | EnvCancel =>
      if ctx_done s then None
      else Some (mkState true (lanes s) (wg s) (closer s) (out_cap s)
                   (out_buf s) (out_closes s) (delivered s) (panicked s))
    | EnvProduce i | FwdRecv i | FwdDone i | FwdSend i | FwdReturn i =>
      match nth_error (lanes s) i with
      | Some l => exec_lane a i l s
      | None => None
      end
    | CloserWait =>
      match closer s, wg s with
      | AtWait, O => Some (set_closer AtClose s)
      | _, _ => None
      end
    | CloserClose =>
      match closer s with
      | AtClose =>
        if (0 <? out_closes s)%nat then Some (panic s)   (* close of a closed channel *)
        else Some (mkState (ctx_done s) (lanes s) (wg s) Finished (out_cap s)
                     (out_buf s) (S (out_closes s)) (delivered s) (panicked s))
      | _ => None
      end
    | Consume =>
      match out_buf s with
      | [] => None
      | err :: rest =>
        Some (mkState (ctx_done s) (lanes s) (wg s) (closer s) (out_cap s)
                rest (out_closes s) (delivered s ++ [err]) (panicked s))
      end
    end.

(** A run: the steps of a schedule, in order. *)
Fixpoint run (acts : list action) (s : MergeState) : option MergeState :=
  match acts with
  | [] => Some s
  | a :: acts' =>
    match exec a s with
    | Some s' => run acts' s'
    | None => None
    end
  end.

(** Every value sent on [out] so far, in the order sent. *)
Definition out_sent (s : MergeState) : list error := delivered s ++ out_buf s.

(** The errors a set of channels is going to deliver. *)
Definition emitted_by (c : Source) : list error :=
  match c with
  | WillEmit err | Emitted err => [err]
  | _ => []
  end.

Definition will_produce (c : Source) : bool :=
  match c with
  | Taken => false
  | _ => true
  end.

(** The steps of the program and of the producers, cancellation left
    out, for [n] channels. *)
Definition steps_of_lane (i : nat) : list action :=
  [EnvProduce i; FwdRecv i; FwdDone i; FwdSend i; FwdReturn i].

Definition steps (n : nat) : list action :=
  CloserWait :: CloserClose :: Consume :: flat_map steps_of_lane (seq 0 n).

(** Nothing more can happen, unless [ctx] is cancelled. *)
Definition quiescent (s : MergeState) : bool :=
  forallb (fun a => match exec a s with None => true | Some _ => false end)
    (steps (List.length (lanes s))).

Definition is_returned (l : lane) : bool :=
  match fwd l with
  | Returned => true
  | _ => false
  end.

(** How many steps a state can still take, at most. *)
Definition lane_fuel (l : lane) : nat :=
  match src l with
  | WillEmit _ => 2
  | Emitted _ | WillClose => 1
  | Taken | Closed => 0
  end +
  match fwd l with
  | AtSelect | AtSend _ => 3
  | AtReturn => 1
  | Returned => 0
  end.

Definition fuel (s : MergeState) : nat :=
  (if ctx_done s then 0 else 1)
  + list_sum (map lane_fuel (lanes s))
  + match closer s with AtWait => 2 | AtClose => 1 | Finished => 0 end
  + List.length (out_buf s)
  + (if panicked s then 0 else 1).

(** The errors a lane still holds: in its channel, or in the hands
    of its forwarder. *)
Definition held (l : lane) : list error :=
  emitted_by (src l) ++
  match fwd l with
  | AtSend err => [err]
  | _ => []
  end.

(** 1 for a forwarder that may still send on [out]. *)
Definition may_send (l : lane) : nat :=
  match fwd l with
  | AtSelect | AtSend _ => 1
  | _ => 0
  end.

(** 1 for a forwarder whose [wg.Done()] is still to come. *)
Definition unfinished (l : lane) : nat :=
  if is_returned l then 0 else 1.

(** A forwarder is where its channel allows: it holds a value only
    if it took it, and without cancellation it has left the [select]
    only by receiving. *)
Definition lane_ok (cancelled : bool) (l : lane) : bool :=
  match fwd l, src l with
  | AtSelect, Taken => false
  | AtSelect, _ => true
  | AtSend _, Taken => true
  | AtSend _, _ => false
  | _, Taken | _, Closed => true
  | _, _ => cancelled
  end.

(** What holds in every state a run can reach. *)
Record Inv (errs : list error) (s : MergeState) : Prop := mkInv {
  inv_no_panic : panicked s = false;
  inv_cap : out_cap s = List.length (lanes s);
  inv_wg : wg s = list_sum (map unfinished (lanes s));
  inv_room :
    List.length (out_buf s) + list_sum (map may_send (lanes s)) <= out_cap s;
  inv_closer :
    match closer s with
    | AtWait => out_closes s = 0
    | AtClose => out_closes s = 0 /\ wg s = 0
    | Finished => out_closes s = 1 /\ wg s = 0
    end;
  inv_lanes : forallb (lane_ok (ctx_done s)) (lanes s) = true;
  inv_conserve :
    Permutation errs (delivered s ++ out_buf s ++ flat_map held (lanes s))
}.

Definition is_recv (a : action) : bool :=
  match a with
  | FwdRecv _ => true
  | _ => false
  end.

(** No forwarder holds a value and nothing was sent on [out]. *)
Definition nothing_forwarded (s : MergeState) : Prop :=
  out_sent s = [] /\
  forallb (fun l => match fwd l with AtSend _ => false | _ => true end)
    (lanes s) = true.

(** The schedule in which every forwarder takes the cancellation case
    of its [select] and returns, and [out] is closed; no producer
    moves. *)
Definition cancel_schedule (n : nat) : list action :=
  flat_map (fun i => [FwdDone i; FwdReturn i]) (seq 0 n)
  ++ [CloserWait; CloserClose].

Definition is_cancel (a : action) : bool :=
  match a with
  | EnvCancel => true
  | _ => false
  end.

(** A channel whose producer has not moved yet. *)
Definition pending (c : Source) : bool :=
  match c with
  | WillEmit _ | WillClose => true
  | _ => false
  end.

Definition err_a : error := errNew "block a failed".
Definition err_b : error := errNew "block b failed".

(** A schedule for three channels, the second of which only closes:
    the third error overtakes the first. *)
Definition three_channels : list Source :=
  [WillEmit err_a; WillClose; WillEmit err_b].

Definition schedule_three : list action :=
  [EnvProduce 2; FwdRecv 2; EnvProduce 0; EnvProduce 1; FwdRecv 1;
   FwdSend 2; FwdRecv 0; FwdReturn 1; FwdSend 0; Consume;
   FwdReturn 0; FwdReturn 2; CloserWait; CloserClose; Consume].

(** The state that schedule ends in. *)
Definition after_schedule_three : MergeState :=
  mkState false
    [mkLane Taken Returned; mkLane Closed Returned; mkLane Taken Returned]
    0 Finished 3 [] 1 [err_b; err_a] false.

(** The time spent in [time.Sleep], in nanoseconds. *)
Definition total_sleep (tr : list event) : Z :=
  fold_right Z.add 0%Z (sleeps tr).

(** The block files asked of the driver, one per [Read]. *)
Fixpoint reads_of (tr : list event) : list string :=
  match tr with
  | [] => []
  | EvRead blkFile _ :: tr' => blkFile :: reads_of tr'
  | _ :: tr' => reads_of tr'
  end.

(** The checksums handed to [util.DecompressAndVerify]. *)
Fixpoint checksums_of (tr : list event) : list string :=
  match tr with
  | [] => []
  | EvDecompressAndVerify _ _ checksum _ :: tr' => checksum :: checksums_of tr'
  | _ :: tr' => checksums_of tr'
  end.

(** ** getBlockPath, getBlockFilePath *)

(** What the path functions take from the rest of the package and
    from [path/filepath]: parameters of the development. *)
Class Layout : Type := {
  BLOCKS_DIRECTORY : string;
  BLOCK_SEPARATE_LAYER1 : nat;
  BLOCK_SEPARATE_LAYER2 : nat;
  BLK_SUFFIX : string;
  getVolumePath : string -> string;
  filepath_Join : list string -> string
}.

(** The slice expression [s[lo:hi]] of a string; [None] is the
    run-time panic for bounds out of range. *)
Definition slice (s : string) (lo hi : nat) : option string :=
  if (lo <=? hi)%nat && (hi <=? String.length s)%nat
  then Some (substring lo (hi - lo) s)
  else None.

Definition getBlockPath `{Layout} (volumeName : string) : string :=
  (filepath_Join [getVolumePath volumeName; BLOCKS_DIRECTORY] ++ "/")%string.

Definition getBlockFilePath `{Layout} (volumeName checksum : string)
  : option string :=
  match slice checksum 0 BLOCK_SEPARATE_LAYER1 with
  | None => None
  | Some blockSubDirLayer1 =>
    match slice checksum BLOCK_SEPARATE_LAYER1 BLOCK_SEPARATE_LAYER2 with
    | None => None
    | Some blockSubDirLayer2 =>
      let path := filepath_Join [getBlockPath volumeName;
                                 blockSubDirLayer1; blockSubDirLayer2] in
      let fileName := (checksum ++ BLK_SUFFIX)%string in
      Some (filepath_Join [path; fileName])
    end
  end.

(** ** getBlockSizeFromParameters *)

(** What the function takes from the rest of the package, from
    [go-common-libs/backup] and from [apimachinery/resource]. *)
Class Quantities : Type := {
  DEFAULT_BLOCK_SIZE : Z;
  LonghornBackupParameterBackupBlockSize : string;
  Quantity : Type;
  ParseQuantity : string -> Result Quantity;
  IsZero : Quantity -> bool;
  Value : Quantity -> Z
}.

(** A [map[string]string] that is only read: [None] is the nil map,
    and [m key] is the value stored under [key], if any. *)
Definition StringMap : Type := option (string -> option string).

(** [v, exist := parameters[key]]. *)
Definition map_index (m : string -> option string) (key : string)
  : string * bool :=
  match m key with
  | Some v => (v, true)
  | None => ("", false)
  end.

(** [errors.Wrapf(err, "invalid block size %s from parameter %s",
    sizeVal, lhbackup.LonghornBackupParameterBackupBlockSize)]. *)
Definition wrap_invalid_block_size `{Quantities} (err : error) (sizeVal : string)
  : error :=
  Wrapf err [Lit "invalid block size "; ArgV sizeVal; Lit " from parameter ";
             ArgV LonghornBackupParameterBackupBlockSize].

(** The returned pair [(int64, error)]; [None] is the nil error. *)
Definition getBlockSizeFromParameters `{Quantities} (parameters : StringMap)
  : Z * option error :=
  match parameters with
  | None => (DEFAULT_BLOCK_SIZE, None)
  | Some m =>
    let (sizeVal, exist) := map_index m LonghornBackupParameterBackupBlockSize in
    if (negb exist || (sizeVal =? "")%string)%bool then (DEFAULT_BLOCK_SIZE, None)
    else
      match ParseQuantity sizeVal with
      | Err err => (0%Z, Some (wrap_invalid_block_size err sizeVal))
      | Ok quantity =>
        if IsZero quantity then (DEFAULT_BLOCK_SIZE, None)
        else (Value quantity, None)
      end
  end.

(** The value a map holds for the block size, if any. *)
Definition block_size_parameter `{Quantities} (parameters : StringMap)
  : option string :=
  match parameters with
  | None => None
  | Some m => m LonghornBackupParameterBackupBlockSize
  end.

(** Stand-ins for the parameters: layers of 2 and 2 bytes, and
    quantities that are decimal numerals. *)
Definition toyLayout : Layout := {|
  BLOCKS_DIRECTORY := "blocks";
  BLOCK_SEPARATE_LAYER1 := 2;
  BLOCK_SEPARATE_LAYER2 := 4;
  BLK_SUFFIX := ".blk";
  getVolumePath := fun volumeName => ("volumes/" ++ volumeName)%string;
  filepath_Join := fun elems => String.concat "/" elems
|}.

Definition toyQuantities : Quantities := {|
  DEFAULT_BLOCK_SIZE := 2097152%Z;
  LonghornBackupParameterBackupBlockSize := "backup-block-size";
  Quantity := nat;
  ParseQuantity := fun sizeVal =>
    match NilEmpty.uint_of_string sizeVal with
    | Some d => Ok (Nat.of_uint d)
    | None => Err (errNew "quantities must match the regular expression")
    end;
  IsZero := fun q => Nat.eqb q 0;
  Value := Z.of_nat
|}.

(** The world after further events. *)
Definition after {D} (w : World D) (evs : list event) : World D :=
  mkWorld (bsDriver w) (backoffDuration w) (trace w ++ evs).

(** What a computation did between two worlds: its decompress-and-verify
    attempts, the streams it acquired and the streams it closed. *)
Definition observe {D} (w w' : World D)
  : list (string * ReadCloser) * list ReadCloser * list ReadCloser :=
  (decompressions (events_since w w'),
   acquired (events_since w w'),
   closed (events_since w w')).

(** * Theorems *)

(** ** Strings *)

Lemma append_assoc (s1 s2 s3 : string) :
  ((s1 ++ s2) ++ s3 = s1 ++ (s2 ++ s3))%string.
Proof. induction s1 as [| c s1 IH]; simpl; [| rewrite IH]; reflexivity. Qed.

Lemma append_nil_r (s : string) : (s ++ "")%string = s.
Proof. induction s as [| c s IH]; simpl; [| rewrite IH]; reflexivity. Qed.

(** ** The text of a wrapped error *)

Section ErrorText.

Context `{External}.

Lemma render_cons (p : piece) (prefix : list piece) :
  render (p :: prefix) = (render_piece p ++ render prefix)%string.
Proof. reflexivity. Qed.

(** A prefix that starts with literal text is not empty, so the
    wrapped error prints as the prefix, a colon and the cause. *)
Lemma Error_Wrapf_Lit (err : error) (c : ascii) (text : string)
  (prefix : list piece) :
  Error (Wrapf err (Lit (String c text) :: prefix))
  = (String c text ++ render prefix ++ ": " ++ Error err)%string.
Proof.
  unfold Wrapf. cbn [Error]. rewrite render_cons. cbn [render_piece].
  change (String c text ++ render prefix)%string
    with (String c (text ++ render prefix)%string).
  cbn [String.eqb]. cbn [append]. rewrite append_assoc. reflexivity.
Qed.

(** The two layers of [errors.Wrapf]. *)
Lemma Unwrap_Wrapf (err : error) (prefix : list piece) :
  exists layer, Unwrap (Wrapf err prefix) = Some layer /\ Unwrap layer = Some err.
Proof. eexists. split; reflexivity. Qed.

End ErrorText.

(** ** Reading traces piecewise *)

Ltac observer_app :=
  let tr := fresh "tr" in
  let ev := fresh "ev" in
  let IH := fresh "IH" in
  intros tr; induction tr as [| ev tr IH]; intros; simpl;
  [ reflexivity
  | destruct ev as [? [? | ?] | ? | ? ? ? ? | ?]; simpl; rewrite IH; reflexivity ].

Lemma acquired_app : forall tr1 tr2,
  acquired (tr1 ++ tr2) = acquired tr1 ++ acquired tr2.
Proof. observer_app. Qed.

Lemma read_attempts_app : forall tr1 tr2,
  read_attempts (tr1 ++ tr2) = read_attempts tr1 + read_attempts tr2.
Proof. observer_app. Qed.

Lemma sleeps_app : forall tr1 tr2,
  sleeps (tr1 ++ tr2) = sleeps tr1 ++ sleeps tr2.
Proof. observer_app. Qed.

Lemma decompressions_app : forall tr1 tr2,
  decompressions (tr1 ++ tr2) = decompressions tr1 ++ decompressions tr2.
Proof. observer_app. Qed.

Lemma closed_app : forall tr1 tr2,
  closed (tr1 ++ tr2) = closed tr1 ++ closed tr2.
Proof. observer_app. Qed.

Lemma events_since_app {D} (w w' : World D) evs :
  trace w' = trace w ++ evs -> events_since w w' = evs.
Proof.
  intros Htr. unfold events_since. rewrite Htr.
  rewrite skipn_app, skipn_all, Nat.sub_diag. reflexivity.
Qed.

Lemma events_since_mk {D} (w : World D) d bd evs :
  events_since w (mkWorld d bd (trace w ++ evs)) = evs.
Proof. apply events_since_app. reflexivity. Qed.

Lemma events_since_after {D} (w w' : World D) evs evs' :
  trace w' = trace w ++ evs ->
  events_since w (after w' evs') = evs ++ evs'.
Proof.
  intros Htr. apply events_since_app. unfold after. cbn [trace].
  rewrite Htr, app_assoc. reflexivity.
Qed.

Lemma retry_events_sleeps blkFile : forall errs durs,
  List.length errs <= List.length durs ->
  sleeps (retry_events blkFile errs durs) = firstn (List.length errs) durs.
Proof.
  induction errs as [| err errs IH]; intros [| dur durs] Hlen; simpl in *;
    try reflexivity; try lia.
  rewrite IH by lia. reflexivity.
Qed.

Lemma retry_events_read_attempts blkFile : forall errs durs,
  List.length errs <= List.length durs ->
  read_attempts (retry_events blkFile errs durs) = List.length errs.
Proof.
  induction errs as [| err errs IH]; intros [| dur durs] Hlen; simpl in *;
    try reflexivity; try lia.
  rewrite IH by lia. reflexivity.
Qed.

Lemma retry_events_quiet blkFile : forall errs durs,
  acquired (retry_events blkFile errs durs) = [] /\
  decompressions (retry_events blkFile errs durs) = [] /\
  closed (retry_events blkFile errs durs) = [].
Proof.
  induction errs as [| err errs IH]; intros [| dur durs]; simpl; auto.
Qed.

Section Retry.

Context {D : Type} `{BackupStoreDriver D} `{External}.

Lemma driverRead_backoffDuration blkFile (w : World D) :
  backoffDuration (snd (driverRead blkFile w)) = backoffDuration w.
Proof. unfold driverRead. destruct (Read (bsDriver w) blkFile). reflexivity. Qed.

(** One turn of the loop, as the source reads. *)
Lemma readBlockWithRetry_loop_step blkFile attempts (w : World D) :
  readBlockWithRetry_loop blkFile attempts w =
  match driverRead blkFile w with
  | (Ok rc, w1) => (Ok rc, w1)
  | (Err err, w1) =>
    if lt_dec attempts (List.length (backoffDuration w1)) then
      readBlockWithRetry_loop blkFile (attempts + 1)
        (snd (Sleep (nth attempts (backoffDuration w1) 0%Z) w1))
    else (Err (wrap_read_failed err blkFile (attempts + 1)), w1)
  end.
Proof.
  funelim (readBlockWithRetry_loop blkFile attempts w).
  - rewrite e. reflexivity.
  - rewrite Hread.
    destruct (lt_dec attempts (List.length (backoffDuration w1))); [reflexivity | contradiction].
  - rewrite Hread.
    destruct (lt_dec attempts (List.length (backoffDuration w1))); [contradiction | reflexivity].
Qed.

Lemma skipn_nth_cons (l : list Duration) n :
  n < List.length l -> skipn n l = nth n l 0%Z :: skipn (n + 1) l.
Proof.
  revert n. induction l as [| x l IH]; intros [| n] Hn; simpl in *; try lia.
  - reflexivity.
  - apply IH. lia.
Qed.

Lemma driverReads_S n blkFile (d : D) :
  driverReads (S n) blkFile d =
  (fst (Read d blkFile) :: fst (driverReads n blkFile (snd (Read d blkFile))),
   snd (driverReads n blkFile (snd (Read d blkFile)))).
Proof.
  simpl. destruct (Read d blkFile) as [res d']. simpl.
  destruct (driverReads n blkFile d'). reflexivity.
Qed.

(** Failures followed by a success: the loop stops at the success. *)
Lemma readBlockWithRetry_loop_succeeds blkFile errs rc :
  forall attempts (w : World D),
    fst (driverReads (S (List.length errs)) blkFile (bsDriver w))
      = map Err errs ++ [Ok rc] ->
    attempts + List.length errs <= List.length (backoffDuration w) ->
    readBlockWithRetry_loop blkFile attempts w =
    (Ok rc,
     mkWorld (snd (driverReads (S (List.length errs)) blkFile (bsDriver w)))
       (backoffDuration w)
       (trace w ++ retry_events blkFile errs (skipn attempts (backoffDuration w))
          ++ [EvRead blkFile (Ok rc)])).
Proof.
  induction errs as [| err errs IH]; intros attempts w Hreads Hlen;
    rewrite readBlockWithRetry_loop_step; unfold driverRead;
    rewrite driverReads_S in Hreads |- *;
    destruct (Read (bsDriver w) blkFile) as [res d'] eqn:Hread;
    cbn [fst snd map app List.length] in Hreads, Hlen |- *.
  - injection Hreads as ->. reflexivity.
  - injection Hreads as -> Hrest. cbn [backoffDuration].
    destruct (lt_dec attempts (List.length (backoffDuration w))) as [Hlt | Hge];
      [| lia].
    rewrite IH; cbn [bsDriver backoffDuration trace Sleep emit snd];
      [| exact Hrest | lia].
    rewrite (skipn_nth_cons _ _ Hlt). cbn [retry_events].
    rewrite <- !app_assoc. reflexivity.
Qed.

(** Failures through the whole schedule and one more: the loop gives up. *)
Lemma readBlockWithRetry_loop_exhausts blkFile errs err_last :
  forall attempts (w : World D),
    fst (driverReads (S (List.length errs)) blkFile (bsDriver w))
      = map Err errs ++ [Err err_last] ->
    attempts + List.length errs = List.length (backoffDuration w) ->
    readBlockWithRetry_loop blkFile attempts w =
    (Err (wrap_read_failed err_last blkFile (attempts + List.length errs + 1)),
     mkWorld (snd (driverReads (S (List.length errs)) blkFile (bsDriver w)))
       (backoffDuration w)
       (trace w ++ retry_events blkFile errs (skipn attempts (backoffDuration w))
          ++ [EvRead blkFile (Err err_last)])).
Proof.
  induction errs as [| err errs IH]; intros attempts w Hreads Hlen;
    rewrite readBlockWithRetry_loop_step; unfold driverRead;
    rewrite driverReads_S in Hreads |- *;
    destruct (Read (bsDriver w) blkFile) as [res d'] eqn:Hread;
    cbn [fst snd map app List.length] in Hreads, Hlen |- *.
  - injection Hreads as ->. cbn [backoffDuration].
    destruct (lt_dec attempts (List.length (backoffDuration w))) as [Hlt | Hge];
      [lia |].
    rewrite Nat.add_0_r. reflexivity.
  - injection Hreads as -> Hrest. cbn [backoffDuration].
    destruct (lt_dec attempts (List.length (backoffDuration w))) as [Hlt | Hge];
      [| lia].
    rewrite IH; cbn [bsDriver backoffDuration trace Sleep emit snd];
      [| exact Hrest | lia].
    rewrite (skipn_nth_cons _ _ Hlt). cbn [retry_events].
    rewrite <- !app_assoc.
    replace (attempts + 1 + List.length errs + 1)
      with (attempts + S (List.length errs) + 1) by lia.
    reflexivity.
Qed.

(** Induction along the turns of the loop, for any driver. *)
Lemma readBlockWithRetry_loop_rect blkFile
  (P : nat -> World D -> Result ReadCloser * World D -> Prop) :
  (forall attempts w rc d',
      Read (bsDriver w) blkFile = (Ok rc, d') ->
      P attempts w
        (Ok rc, mkWorld d' (backoffDuration w)
                  (trace w ++ [EvRead blkFile (Ok rc)]))) ->
  (forall attempts w err d',
      Read (bsDriver w) blkFile = (Err err, d') ->
      attempts < List.length (backoffDuration w) ->
      forall w2,
        w2 = mkWorld d' (backoffDuration w)
               ((trace w ++ [EvRead blkFile (Err err)])
                  ++ [EvSleep (nth attempts (backoffDuration w) 0%Z)]) ->
        P (attempts + 1) w2 (readBlockWithRetry_loop blkFile (attempts + 1) w2) ->
        P attempts w (readBlockWithRetry_loop blkFile (attempts + 1) w2)) ->
  (forall attempts w err d',
      Read (bsDriver w) blkFile = (Err err, d') ->
      ~ attempts < List.length (backoffDuration w) ->
      P attempts w
        (Err (wrap_read_failed err blkFile (attempts + 1)),
         mkWorld d' (backoffDuration w)
           (trace w ++ [EvRead blkFile (Err err)]))) ->
  forall attempts w, P attempts w (readBlockWithRetry_loop blkFile attempts w).
Proof.
  intros Hok Hretry Hstop attempts w.
  funelim (readBlockWithRetry_loop blkFile attempts w);
    repeat match goal with
           | Hx : _ = readBlockWithRetry_loop _ _ _ |- _ => clear Hx
           | Hx : sigmaI _ _ _ = _ |- _ => clear Hx
           | Hx : lt_dec _ _ = _ |- _ => clear Hx
           end;
    match goal with
    | Hr : driverRead _ _ = _ |- _ =>
      unfold driverRead in Hr;
      destruct (Read (bsDriver w) blkFile) as [res d'] eqn:HRead;
      injection Hr as -> <-
    end; cbn [fst snd backoffDuration trace] in *.
  - apply Hok. exact HRead.
  - apply (Hretry _ _ _ _ HRead l _ eq_refl).
    match goal with
    | IH : forall Q : nat -> _, _ |- _ => exact (IH P Hok Hretry Hstop)
    end.
  - eapply Hstop; eauto.
Qed.

(** Whatever the driver does, a call of the loop leaves the package
    variable alone, decompresses and closes nothing, and hands out
    exactly the stream it returns. *)
Lemma readBlockWithRetry_loop_frame blkFile attempts (w : World D) :
  backoffDuration (snd (readBlockWithRetry_loop blkFile attempts w))
    = backoffDuration w /\
  exists evs,
    trace (snd (readBlockWithRetry_loop blkFile attempts w)) = trace w ++ evs /\
    decompressions evs = [] /\
    closed evs = [] /\
    acquired evs =
      match fst (readBlockWithRetry_loop blkFile attempts w) with
      | Ok rc => [rc]
      | Err _ => []
      end.
Proof.
  apply (readBlockWithRetry_loop_rect blkFile
    (fun _ w out =>
       backoffDuration (snd out) = backoffDuration w /\
       exists evs,
         trace (snd out) = trace w ++ evs /\
         decompressions evs = [] /\
         closed evs = [] /\
         acquired evs = match fst out with Ok rc => [rc] | Err _ => [] end));
    clear attempts w.
  - intros _ w rc d' _. cbn [fst snd backoffDuration trace].
    split; [reflexivity |]. eexists. split; [reflexivity |]. auto.
  - intros attempts w err d' _ _ w2 -> [Hbd (evs & Htr & Hd & Hc & Ha)].
    cbn [fst snd backoffDuration trace] in *.
    split; [exact Hbd |].
    exists ([EvRead blkFile (Err err);
             EvSleep (nth attempts (backoffDuration w) 0%Z)] ++ evs).
    split; [rewrite Htr, <- !app_assoc; reflexivity |].
    rewrite decompressions_app, closed_app, acquired_app, Hd, Hc, Ha.
    repeat split; reflexivity.
  - intros attempts w err d' _ _. cbn [fst snd backoffDuration trace].
    split; [reflexivity |]. eexists. split; [reflexivity |]. auto.
Qed.

(** C1: when the driver fails the first [k <= 10] reads of the block
    (with errors [errs]) and its next read succeeds with [rc],
    [readBlockWithRetry] returns [rc], the stream of read number
    [k + 1]; it has slept [k] times, for [backoffDuration[0]] ...
    [backoffDuration[k-1]] in that order, each sleep after a failed
    read, and has called [Read] exactly [k + 1] times. *)
Theorem readBlockWithRetry_fails_k_then_succeeds
  blkFile (w : World D) (errs : list error) (rc : ReadCloser) :
  backoffDuration w = backoffDuration_init ->
  List.length errs <= 10 ->
  fst (driverReads (S (List.length errs)) blkFile (bsDriver w))
    = map Err errs ++ [Ok rc] ->
  let k := List.length errs in
  let out := readBlockWithRetry blkFile w in
  fst out = Ok rc /\
  events_since w (snd out)
    = retry_events blkFile errs backoffDuration_init ++ [EvRead blkFile (Ok rc)] /\
  sleeps (events_since w (snd out)) = firstn k backoffDuration_init /\
  read_attempts (events_since w (snd out)) = k + 1 /\
  bsDriver (snd out) = snd (driverReads (k + 1) blkFile (bsDriver w)).
Proof.
  intros Hbd Hlen Hreads k out. subst k out. unfold readBlockWithRetry.
  rewrite (readBlockWithRetry_loop_succeeds blkFile errs rc 0 w Hreads)
    by (rewrite Hbd; simpl; lia).
  cbn [fst snd bsDriver]. rewrite Hbd. cbn [skipn].
  assert (Hsched : List.length errs <= List.length backoffDuration_init)
    by (simpl; lia).
  rewrite !events_since_mk.
  rewrite sleeps_app, read_attempts_app.
  rewrite retry_events_sleeps, retry_events_read_attempts by exact Hsched.
  cbn [sleeps read_attempts]. rewrite app_nil_r.
  repeat split; try reflexivity.
  rewrite Nat.add_1_r. reflexivity.
Qed.

(** C2: when the driver fails eleven reads of the block in a row (the
    first ten with [errs], the eleventh with [err_last]),
    [readBlockWithRetry] sleeps through the whole schedule, ten
    sleeps, calls [Read] eleven times, and returns no stream but an
    error that wraps [err_last], two layers down as [errors.Wrapf]
    builds it, and reports 11 attempts after the block file name as
    the errors library prints it. *)
Theorem readBlockWithRetry_always_failing
  blkFile (w : World D) (errs : list error) (err_last : error) :
  backoffDuration w = backoffDuration_init ->
  List.length errs = 10 ->
  fst (driverReads 11 blkFile (bsDriver w)) = map Err errs ++ [Err err_last] ->
  let out := readBlockWithRetry blkFile w in
  fst out = Err (wrap_read_failed err_last blkFile 11) /\
  (exists layer,
     Unwrap (wrap_read_failed err_last blkFile 11) = Some layer /\
     Unwrap layer = Some err_last) /\
  Error (wrap_read_failed err_last blkFile 11)
    = ("failed to read block " ++ fmt_v blkFile ++ " after 11 attempts: "
         ++ Error err_last)%string /\
  sleeps (events_since w (snd out)) = backoffDuration_init /\
  List.length (sleeps (events_since w (snd out))) = 10 /\
  read_attempts (events_since w (snd out)) = 11 /\
  acquired (events_since w (snd out)) = [] /\
  bsDriver (snd out) = snd (driverReads 11 blkFile (bsDriver w)).
Proof.
  intros Hbd Hlen Hreads out. subst out. unfold readBlockWithRetry.
  replace 11 with (S (List.length errs)) in Hreads |- * by lia.
  rewrite (readBlockWithRetry_loop_exhausts blkFile errs err_last 0 w Hreads)
    by (rewrite Hbd; simpl; lia).
  cbn [fst snd bsDriver]. rewrite Hbd. cbn [skipn].
  assert (Hsched : List.length errs <= List.length backoffDuration_init)
    by (simpl; lia).
  rewrite !events_since_mk.
  rewrite sleeps_app, read_attempts_app, acquired_app.
  rewrite retry_events_sleeps, retry_events_read_attempts by exact Hsched.
  destruct (retry_events_quiet blkFile errs backoffDuration_init) as (-> & _ & _).
  rewrite Hlen. cbn [sleeps read_attempts acquired Nat.add]. rewrite app_nil_r.
  repeat split; try reflexivity.
  - apply Unwrap_Wrapf.
  - unfold wrap_read_failed. rewrite Error_Wrapf_Lit.
    rewrite !render_cons. cbn [render_piece render map fold_right].
    change (fmt_d 11) with "11".
    rewrite append_nil_r, !append_assoc. reflexivity.
Qed.

(** ** readBlockWithRetry, whatever the driver answers *)

Lemma reads_of_app : forall tr1 tr2,
  reads_of (tr1 ++ tr2) = reads_of tr1 ++ reads_of tr2.
Proof. observer_app. Qed.

Lemma checksums_of_app : forall tr1 tr2,
  checksums_of (tr1 ++ tr2) = checksums_of tr1 ++ checksums_of tr2.
Proof. observer_app. Qed.

Lemma retry_events_reads_of blkFile : forall errs durs,
  List.length errs <= List.length durs ->
  reads_of (retry_events blkFile errs durs) = repeat blkFile (List.length errs) /\
  checksums_of (retry_events blkFile errs durs) = [].
Proof.
  induction errs as [| err errs IH]; intros [| dur durs] Hlen; simpl in *;
    auto; try lia.
  destruct (IH durs) as [-> ->]; [lia | auto].
Qed.

(** Every run of the loop is some failed reads, each followed by its
    sleep, and one last read: a success, or the failure after the
    last duration of the schedule. *)
Lemma readBlockWithRetry_loop_shape blkFile attempts (w : World D) :
  attempts <= List.length (backoffDuration w) ->
  exists errs last,
    trace (snd (readBlockWithRetry_loop blkFile attempts w))
      = trace w ++ retry_events blkFile errs (skipn attempts (backoffDuration w))
          ++ [EvRead blkFile last] /\
    attempts + List.length errs <= List.length (backoffDuration w) /\
    match last with
    | Ok rc => fst (readBlockWithRetry_loop blkFile attempts w) = Ok rc
    | Err err =>
      attempts + List.length errs = List.length (backoffDuration w) /\
      fst (readBlockWithRetry_loop blkFile attempts w)
        = Err (wrap_read_failed err blkFile
                 (List.length (backoffDuration w) + 1))
    end.
Proof.
  apply (readBlockWithRetry_loop_rect blkFile
    (fun attempts w out =>
       attempts <= List.length (backoffDuration w) ->
       exists errs last,
         trace (snd out)
           = trace w ++ retry_events blkFile errs
                          (skipn attempts (backoffDuration w))
               ++ [EvRead blkFile last] /\
         attempts + List.length errs <= List.length (backoffDuration w) /\
         match last with
         | Ok rc => fst out = Ok rc
         | Err err =>
           attempts + List.length errs = List.length (backoffDuration w) /\
           fst out = Err (wrap_read_failed err blkFile
                            (List.length (backoffDuration w) + 1))
         end));
    clear attempts w.
  - intros attempts w rc d' _ Hle. exists [], (Ok rc).
    cbn [fst snd trace retry_events app List.length].
    repeat split; [lia].
  - intros attempts w err d' _ Hlt w2 -> IH _.
    cbn [backoffDuration trace] in IH.
    destruct IH as (errs & last & Htr & Hlen & Hlast); [lia |].
    exists (err :: errs), last. rewrite Htr.
    rewrite (skipn_nth_cons _ _ Hlt). cbn [retry_events List.length].
    split; [rewrite <- !app_assoc; reflexivity |].
    split; [lia |].
    destruct last as [rc | e]; [exact Hlast |].
    destruct Hlast as [Hfull Hres]. split; [lia | exact Hres].
  - intros attempts w err d' _ Hge Hle. exists [], (Err err).
    cbn [fst snd trace retry_events app List.length].
    assert (attempts = List.length (backoffDuration w)) as Heq by lia.
    repeat split; try lia. rewrite Heq at 1. reflexivity.
Qed.

Lemma schedule_prefix_sum (k : nat) :
  (0 <= fold_right Z.add 0 (firstn k backoffDuration_init)
     <= 35556 * time.Second)%Z.
Proof.
  destruct (le_lt_dec (List.length backoffDuration_init) k) as [Hall | Hpart].
  - rewrite (firstn_all2 _ Hall). vm_compute. split; discriminate.
  - do 10 (destruct k as [| k]; [vm_compute; split; discriminate |]).
    simpl in Hpart. lia.
Qed.

Lemma total_sleep_app tr1 tr2 :
  total_sleep (tr1 ++ tr2) = (total_sleep tr1 + total_sleep tr2)%Z.
Proof.
  unfold total_sleep. rewrite sleeps_app.
  induction (sleeps tr1) as [| dur durs IH]; simpl; [reflexivity |].
  rewrite IH. lia.
Qed.

(** One acquisition, as the trace shows it. *)
Lemma readBlockWithRetry_run blkFile (w : World D) :
  backoffDuration w = backoffDuration_init ->
  exists evs,
    trace (snd (readBlockWithRetry blkFile w)) = trace w ++ evs /\
    backoffDuration (snd (readBlockWithRetry blkFile w)) = backoffDuration_init /\
    1 <= read_attempts evs <= 11 /\
    List.length (sleeps evs) <= 10 /\
    (0 <= total_sleep evs <= 35556 * time.Second)%Z /\
    reads_of evs = repeat blkFile (read_attempts evs) /\
    checksums_of evs = [] /\
    decompressions evs = [] /\
    closed evs = [] /\
    match fst (readBlockWithRetry blkFile w) with
    | Ok rc => acquired evs = [rc]
    | Err err =>
      acquired evs = [] /\
      exists err_last,
        err = wrap_read_failed err_last blkFile 11 /\
        In (EvRead blkFile (Err err_last)) evs
    end.
Proof.
  intros Hbd. unfold readBlockWithRetry.
  destruct (readBlockWithRetry_loop_shape blkFile 0 w (Nat.le_0_l _))
    as (errs & last & Htr & Hlen & Hlast).
  destruct (readBlockWithRetry_loop_frame blkFile 0 w) as [Hframe _].
  rewrite Hbd in Htr, Hlen, Hlast, Hframe.
  cbn [skipn Nat.add] in Htr, Hlen, Hlast.
  assert (Hsched : List.length errs <= List.length backoffDuration_init)
    by exact Hlen.
  exists (retry_events blkFile errs backoffDuration_init ++ [EvRead blkFile last]).
  split; [exact Htr |]. split; [exact Hframe |].
  unfold total_sleep.
  rewrite read_attempts_app, reads_of_app, checksums_of_app, sleeps_app,
    acquired_app, decompressions_app, closed_app.
  rewrite retry_events_read_attempts, retry_events_sleeps by exact Hsched.
  destruct (retry_events_reads_of blkFile errs _ Hsched) as [-> ->].
  destruct (retry_events_quiet blkFile errs backoffDuration_init)
    as (-> & -> & ->).
  cbn [read_attempts reads_of checksums_of sleeps acquired decompressions
       closed app].
  rewrite app_nil_r, length_firstn.
  change (List.length backoffDuration_init) with 10 in *.
  split; [lia |]. split; [lia |].
  split; [apply schedule_prefix_sum |].
  split; [rewrite Nat.add_1_r, <- repeat_cons; reflexivity |].
  split; [reflexivity |]. split; [reflexivity |]. split; [reflexivity |].
  destruct last as [rc | err].
  - rewrite Hlast. reflexivity.
  - destruct Hlast as [Hfull ->]. split; [reflexivity |].
    exists err. split; [reflexivity |]. apply in_or_app. right. left. reflexivity.
Qed.

(** How many reads one acquisition makes. *)
Lemma readBlockWithRetry_attempts blkFile (w : World D) :
  backoffDuration w = backoffDuration_init ->
  let out := readBlockWithRetry blkFile w in
  1 <= read_attempts (events_since w (snd out)) <= 11 /\
  (forall err, fst out = Err err ->
     read_attempts (events_since w (snd out)) = 11).
Proof.
  intros Hbd out. subst out. unfold readBlockWithRetry.
  destruct (readBlockWithRetry_loop_shape blkFile 0 w (Nat.le_0_l _))
    as (errs & last & Htr & Hlen & Hlast).
  rewrite Hbd in Htr, Hlen, Hlast. cbn [skipn Nat.add] in Htr, Hlen, Hlast.
  rewrite (events_since_app _ _ _ Htr), read_attempts_app.
  rewrite retry_events_read_attempts by exact Hlen.
  change (List.length backoffDuration_init) with 10 in *.
  cbn [read_attempts]. split; [lia |].
  intros err Herr. destruct last as [rc | e].
  - rewrite Hlast in Herr. discriminate.
  - destruct Hlast as [Hfull _]. lia.
Qed.

End Retry.

Section Fallback.

Context {D : Type} `{BackupStoreDriver D} `{External}.

Lemma readBlockWithRetry_frame blkFile (w : World D) :
  backoffDuration (snd (readBlockWithRetry blkFile w)) = backoffDuration w /\
  exists evs,
    trace (snd (readBlockWithRetry blkFile w)) = trace w ++ evs /\
    decompressions evs = [] /\
    closed evs = [] /\
    acquired evs =
      match fst (readBlockWithRetry blkFile w) with
      | Ok rc => [rc]
      | Err _ => []
      end.
Proof. apply readBlockWithRetry_loop_frame. Qed.

(** The function, path by path. *)
Lemma DecompressAndVerifyWithFallback_paths
  blkFile decompression checksum (w : World D) :
  DecompressAndVerifyWithFallback blkFile decompression checksum w =
  match readBlockWithRetry blkFile w with
  | (Err err, w1) => (Err err, w1)
  | (Ok rc, w1) =>
    match DecompressAndVerify decompression rc checksum with
    | Ok r =>
      (Ok r, after w1 [EvDecompressAndVerify decompression rc checksum (Ok r);
                       EvClose rc])
    | Err err =>
      let alt := alternativeDecompression err in
      let w2 := after w1 [EvDecompressAndVerify decompression rc checksum (Err err)] in
      if (alt =? "")%string then
        (Err (wrap_verification_failed err blkFile), after w2 [EvClose rc])
      else
        match readBlockWithRetry blkFile w2 with
        | (Err err2, w3) => (Err err2, after w3 [EvClose rc])
        | (Ok retriedRc, w3) =>
          let res := DecompressAndVerify alt retriedRc checksum in
          (match res with
           | Ok r => Ok r
           | Err err2 => Err (wrap_fallback_failed err2 blkFile)
           end,
           after w3 [EvDecompressAndVerify alt retriedRc checksum res;
                     EvClose retriedRc; EvClose rc])
        end
    end
  end.
Proof.
  unfold DecompressAndVerifyWithFallback, DecompressAndVerifyWithFallback_body,
    bind at 1.
  unfold bind at 1.
  destruct (readBlockWithRetry blkFile w) as [[rc | err] w1]; [| reflexivity].
  unfold bind at 1, callDecompressAndVerify at 1.
  destruct (DecompressAndVerify decompression rc checksum) as [r | err].
  - unfold after. cbn. rewrite <- !app_assoc. reflexivity.
  - cbv zeta. destruct (alternativeDecompression err =? "")%string eqn:Halt.
    + unfold after. cbn. rewrite <- !app_assoc. reflexivity.
    + cbn [negb]. unfold bind at 1. cbn [emit snd].
      fold (after w1 [EvDecompressAndVerify decompression rc checksum (Err err)]).
      destruct (readBlockWithRetry blkFile _) as [[rc2 | err2] w3].
      * unfold bind at 1, callDecompressAndVerify.
        destruct (DecompressAndVerify (alternativeDecompression err) rc2 checksum);
          unfold after; cbn; rewrite <- !app_assoc; reflexivity.
      * unfold after. cbn. reflexivity.
Qed.

(** What a successful and a failed acquisition leave in the trace. *)
Lemma readBlockWithRetry_Ok blkFile (w w1 : World D) rc :
  readBlockWithRetry blkFile w = (Ok rc, w1) ->
  backoffDuration w1 = backoffDuration w /\
  exists evs,
    trace w1 = trace w ++ evs /\
    decompressions evs = [] /\ closed evs = [] /\ acquired evs = [rc].
Proof.
  intros Hrun. pose proof (readBlockWithRetry_frame blkFile w) as Hframe.
  rewrite Hrun in Hframe. exact Hframe.
Qed.

Lemma readBlockWithRetry_Err blkFile (w w1 : World D) err :
  readBlockWithRetry blkFile w = (Err err, w1) ->
  backoffDuration w1 = backoffDuration w /\
  exists evs,
    trace w1 = trace w ++ evs /\
    decompressions evs = [] /\ closed evs = [] /\ acquired evs = [].
Proof.
  intros Hrun. pose proof (readBlockWithRetry_frame blkFile w) as Hframe.
  rewrite Hrun in Hframe. exact Hframe.
Qed.

Lemma observe_after (w w' : World D) evs evs' :
  trace w' = trace w ++ evs ->
  observe w (after w' evs') =
  (decompressions evs ++ decompressions evs',
   acquired evs ++ acquired evs',
   closed evs ++ closed evs').
Proof.
  intros Htr. unfold observe. rewrite (events_since_after _ _ _ _ Htr).
  rewrite decompressions_app, acquired_app, closed_app. reflexivity.
Qed.

(** The result and the observations of every path. *)
Lemma DecompressAndVerifyWithFallback_observed
  blkFile decompression checksum (w : World D) :
  let out := DecompressAndVerifyWithFallback blkFile decompression checksum w in
  match readBlockWithRetry blkFile w with
  | (Err err, w1) => out = (Err err, w1) /\ observe w (snd out) = ([], [], [])
  | (Ok rc, w1) =>
    match DecompressAndVerify decompression rc checksum with
    | Ok r =>
      fst out = Ok r /\
      observe w (snd out) = ([(decompression, rc)], [rc], [rc])
    | Err err =>
      let alt := alternativeDecompression err in
      let w2 := after w1 [EvDecompressAndVerify decompression rc checksum (Err err)] in
      if (alt =? "")%string then
        fst out = Err (wrap_verification_failed err blkFile) /\
        observe w (snd out) = ([(decompression, rc)], [rc], [rc])
      else
        match readBlockWithRetry blkFile w2 with
        | (Err err2, w3) =>
          fst out = Err err2 /\
          observe w (snd out) = ([(decompression, rc)], [rc], [rc])
        | (Ok retriedRc, w3) =>
          fst out =
            match DecompressAndVerify alt retriedRc checksum with
            | Ok r => Ok r
            | Err err2 => Err (wrap_fallback_failed err2 blkFile)
            end /\
          observe w (snd out) =
            ([(decompression, rc); (alt, retriedRc)],
             [rc; retriedRc], [retriedRc; rc])
        end
    end
  end.
Proof.
  intros out. subst out. rewrite DecompressAndVerifyWithFallback_paths.
  destruct (readBlockWithRetry blkFile w) as [[rc | err] w1] eqn:Hread.
  - destruct (readBlockWithRetry_Ok _ _ _ _ Hread)
      as [_ (evs & Htr & Hd & Hc & Ha)].
    destruct (DecompressAndVerify decompression rc checksum) as [r | err].
    + cbn [fst snd]. rewrite (observe_after _ _ _ _ Htr), Hd, Hc, Ha.
      split; reflexivity.
    + cbv zeta.
      set (w2 := after w1 [EvDecompressAndVerify decompression rc checksum (Err err)]).
      assert (Htr2 : trace w2 = trace w ++ evs
                       ++ [EvDecompressAndVerify decompression rc checksum (Err err)]).
      { subst w2. unfold after. cbn [trace]. rewrite Htr, app_assoc. reflexivity. }
      destruct (alternativeDecompression err =? "")%string.
      * cbn [fst snd]. rewrite (observe_after _ _ _ _ Htr2).
        rewrite decompressions_app, acquired_app, closed_app, Hd, Hc, Ha.
        split; reflexivity.
      * destruct (readBlockWithRetry blkFile w2) as [[rc2 | err2] w3] eqn:Hread2.
        -- destruct (readBlockWithRetry_Ok _ _ _ _ Hread2)
             as [_ (evs2 & Htr3 & Hd2 & Hc2 & Ha2)].
           rewrite Htr2, <- !app_assoc in Htr3.
           cbn [fst snd]. rewrite (observe_after _ _ _ _ Htr3).
           rewrite !decompressions_app, !acquired_app, !closed_app.
           rewrite Hd, Hc, Ha, Hd2, Hc2, Ha2. split; reflexivity.
        -- destruct (readBlockWithRetry_Err _ _ _ _ Hread2)
             as [_ (evs2 & Htr3 & Hd2 & Hc2 & Ha2)].
           rewrite Htr2, <- !app_assoc in Htr3.
           cbn [fst snd]. rewrite (observe_after _ _ _ _ Htr3).
           rewrite !decompressions_app, !acquired_app, !closed_app.
           rewrite Hd, Hc, Ha, Hd2, Hc2, Ha2. split; reflexivity.
  - destruct (readBlockWithRetry_Err _ _ _ _ Hread)
      as [_ (evs & Htr & Hd & Hc & Ha)].
    split; [reflexivity |]. cbn [snd]. unfold observe.
    rewrite (events_since_app _ _ _ Htr), Hd, Hc, Ha. reflexivity.
Qed.

(** C6: when the first [readBlockWithRetry] fails, its error is
    returned as it is, and nothing is decompressed, verified or
    closed: the world is the one [readBlockWithRetry] left. *)
Theorem DecompressAndVerifyWithFallback_first_read_fails
  blkFile decompression checksum (w w1 : World D) (err : error) :
  readBlockWithRetry blkFile w = (Err err, w1) ->
  let out := DecompressAndVerifyWithFallback blkFile decompression checksum w in
  out = (Err err, w1) /\
  decompressions (events_since w (snd out)) = [] /\
  closed (events_since w (snd out)) = [].
Proof.
  intros Hread out. subst out.
  rewrite DecompressAndVerifyWithFallback_paths, Hread. cbn [snd].
  destruct (readBlockWithRetry_Err _ _ _ _ Hread) as [_ (evs & Htr & Hd & Hc & _)].
  rewrite (events_since_app _ _ _ Htr). auto.
Qed.

(** C5: when the first decompress-and-verify attempt fails with an
    error whose text carries neither the gzip header signature nor
    the lz4 magic-number signature, there is no fallback: that one
    attempt is the only one, no stream is acquired after the first,
    the driver is not called again, and the result is the first
    failure wrapped, two layers down as [errors.Wrapf] builds it,
    with the block file name as the errors library prints it. *)
Theorem DecompressAndVerifyWithFallback_no_signature
  blkFile decompression checksum (w w1 : World D)
  (rc : ReadCloser) (err : error) :
  readBlockWithRetry blkFile w = (Ok rc, w1) ->
  DecompressAndVerify decompression rc checksum = Err err ->
  Contains (Error err) (Error gzip_ErrHeader) = false ->
  Contains (Error err) "lz4: bad magic number" = false ->
  let out := DecompressAndVerifyWithFallback blkFile decompression checksum w in
  fst out = Err (wrap_verification_failed err blkFile) /\
  (exists layer,
     Unwrap (wrap_verification_failed err blkFile) = Some layer /\
     Unwrap layer = Some err) /\
  Error (wrap_verification_failed err blkFile)
    = ("decompression verification failed for block " ++ fmt_v blkFile ++ ": "
         ++ Error err)%string /\
  snd out = after w1 [EvDecompressAndVerify decompression rc checksum (Err err);
                      EvClose rc] /\
  decompressions (events_since w (snd out)) = [(decompression, rc)] /\
  acquired (events_since w (snd out)) = [rc] /\
  read_attempts (events_since w (snd out)) = read_attempts (events_since w w1) /\
  bsDriver (snd out) = bsDriver w1.
Proof.
  intros Hread Hfail Hgz Hlz out. subst out.
  rewrite DecompressAndVerifyWithFallback_paths, Hread, Hfail. cbv zeta.
  unfold alternativeDecompression. rewrite Hgz, Hlz. cbn [String.eqb fst snd].
  destruct (readBlockWithRetry_Ok _ _ _ _ Hread) as [_ (evs & Htr & Hd & Hc & Ha)].
  assert (Hafter :
    after (after w1 [EvDecompressAndVerify decompression rc checksum (Err err)])
      [EvClose rc]
    = after w1 [EvDecompressAndVerify decompression rc checksum (Err err);
                EvClose rc]).
  { unfold after. cbn [bsDriver backoffDuration trace].
    rewrite <- app_assoc. reflexivity. }
  rewrite Hafter, (events_since_after _ _ _ _ Htr), (events_since_app _ _ _ Htr).
  rewrite decompressions_app, acquired_app, read_attempts_app, Hd, Ha.
  cbn [decompressions acquired read_attempts app]. rewrite Nat.add_0_r.
  split; [reflexivity |]. split; [apply Unwrap_Wrapf |].
  split; [| repeat split; reflexivity].
  unfold wrap_verification_failed. rewrite Error_Wrapf_Lit.
  rewrite !render_cons. cbn [render_piece render map fold_right].
  rewrite append_nil_r. reflexivity.
Qed.

Lemma alternativeDecompression_signature (err : error) :
  (Contains (Error err) (Error gzip_ErrHeader)
   || Contains (Error err) "lz4: bad magic number")%bool = true ->
  (alternativeDecompression err =? "")%string = false.
Proof.
  unfold alternativeDecompression.
  destruct (Contains (Error err) (Error gzip_ErrHeader));
    destruct (Contains (Error err) "lz4: bad magic number");
    simpl; congruence.
Qed.

(** C3, as the code has it: when the first decompress-and-verify
    attempt fails with a format-mismatch signature, the function
    calls [readBlockWithRetry] once more.  If that call yields a
    stream, exactly one fallback attempt is made, on that second
    stream and with the alternative method: its reader is returned on
    success, its failure wrapped (two layers down, as [errors.Wrapf]
    builds it) with the block file name as the errors library prints
    it otherwise; two streams were acquired and two attempts made,
    never a third.  If that call fails, its error is returned as it
    is and no fallback attempt is made.  Either way the function
    does nothing after that call but the fallback attempt and the
    closing of its streams: the driver is called by the two
    [readBlockWithRetry] calls only, between 1 and 11 times by the
    second (11 times when it fails). *)
Theorem DecompressAndVerifyWithFallback_one_fallback
  blkFile decompression checksum (w w1 : World D)
  (rc : ReadCloser) (err : error) :
  readBlockWithRetry blkFile w = (Ok rc, w1) ->
  DecompressAndVerify decompression rc checksum = Err err ->
  (Contains (Error err) (Error gzip_ErrHeader)
   || Contains (Error err) "lz4: bad magic number")%bool = true ->
  let alt := alternativeDecompression err in
  let w2 := after w1 [EvDecompressAndVerify decompression rc checksum (Err err)] in
  let out := DecompressAndVerifyWithFallback blkFile decompression checksum w in
  match readBlockWithRetry blkFile w2 with
  | (Ok retriedRc, w3) =>
    fst out =
      match DecompressAndVerify alt retriedRc checksum with
      | Ok r => Ok r
      | Err err2 => Err (wrap_fallback_failed err2 blkFile)
      end /\
    decompressions (events_since w (snd out))
      = [(decompression, rc); (alt, retriedRc)] /\
    acquired (events_since w (snd out)) = [rc; retriedRc] /\
    (forall err2,
        (exists layer,
           Unwrap (wrap_fallback_failed err2 blkFile) = Some layer /\
           Unwrap layer = Some err2) /\
        Error (wrap_fallback_failed err2 blkFile)
          = ("fallback decompression also failed for block " ++ fmt_v blkFile
               ++ ": " ++ Error err2)%string) /\
    snd out
      = after w3 [EvDecompressAndVerify alt retriedRc checksum
                    (DecompressAndVerify alt retriedRc checksum);
                  EvClose retriedRc; EvClose rc] /\
    read_attempts (events_since w (snd out))
      = read_attempts (events_since w w1) + read_attempts (events_since w2 w3) /\
    (backoffDuration w = backoffDuration_init ->
     1 <= read_attempts (events_since w2 w3) <= 11)
  | (Err err2, w3) =>
    fst out = Err err2 /\
    decompressions (events_since w (snd out)) = [(decompression, rc)] /\
    acquired (events_since w (snd out)) = [rc] /\
    snd out = after w3 [EvClose rc] /\
    read_attempts (events_since w (snd out))
      = read_attempts (events_since w w1) + read_attempts (events_since w2 w3) /\
    (backoffDuration w = backoffDuration_init ->
     read_attempts (events_since w2 w3) = 11)
  end.
Proof.
  intros Hread Hfail Hsig alt w2 out.
  pose proof (DecompressAndVerifyWithFallback_observed
                blkFile decompression checksum w) as Hobs.
  cbv zeta in Hobs. rewrite Hread, Hfail in Hobs.
  rewrite (alternativeDecompression_signature err Hsig) in Hobs.
  pose proof (DecompressAndVerifyWithFallback_paths
                blkFile decompression checksum w) as Hpath.
  cbv zeta in Hpath. rewrite Hread, Hfail in Hpath.
  rewrite (alternativeDecompression_signature err Hsig) in Hpath.
  fold w2 alt out in Hobs, Hpath.
  destruct (readBlockWithRetry_Ok _ _ _ _ Hread) as [Hbd1 (evs & Htr & _)].
  assert (Hbd2 : backoffDuration w2 = backoffDuration w) by exact Hbd1.
  assert (Htr2 : trace w2
                 = trace w ++ evs
                     ++ [EvDecompressAndVerify decompression rc checksum (Err err)]).
  { subst w2. unfold after. cbn [trace]. rewrite Htr, app_assoc. reflexivity. }
  pose proof (fun Hbd => readBlockWithRetry_attempts blkFile w2
                           (eq_trans Hbd2 Hbd)) as Hatt.
  cbv zeta in Hatt.
  destruct (readBlockWithRetry blkFile w2) as [[rc2 | err2] w3] eqn:Hread2;
    destruct Hobs as [Hres Hobs]; unfold observe in Hobs;
    injection Hobs as Hd Ha Hc; cbn [fst snd] in Hatt.
  - destruct (readBlockWithRetry_Ok _ _ _ _ Hread2) as [_ (evs2 & Htr3 & _)].
    assert (Hsnd : snd out
                   = after w3 [EvDecompressAndVerify alt rc2 checksum
                                 (DecompressAndVerify alt rc2 checksum);
                               EvClose rc2; EvClose rc])
      by (rewrite Hpath; reflexivity).
    split; [exact Hres |]. split; [exact Hd |]. split; [exact Ha |].
    split.
    { intros e2. split; [apply Unwrap_Wrapf |].
      unfold wrap_fallback_failed. rewrite Error_Wrapf_Lit.
      rewrite !render_cons. cbn [render_piece render map fold_right].
      rewrite append_nil_r. reflexivity. }
    split; [exact Hsnd |]. split; [| intros Hbd; apply (Hatt Hbd)].
    rewrite Hsnd, (events_since_app _ _ _ Htr), (events_since_app _ _ _ Htr3).
    rewrite Htr2, <- app_assoc in Htr3.
    rewrite (events_since_after _ _ _ _ Htr3).
    rewrite !read_attempts_app. cbn [read_attempts]. lia.
  - destruct (readBlockWithRetry_Err _ _ _ _ Hread2) as [_ (evs2 & Htr3 & _)].
    assert (Hsnd : snd out = after w3 [EvClose rc])
      by (rewrite Hpath; reflexivity).
    split; [exact Hres |]. split; [exact Hd |]. split; [exact Ha |].
    split; [exact Hsnd |].
    split; [| intros Hbd; apply (Hatt Hbd) with (err := err2); reflexivity].
    rewrite Hsnd, (events_since_app _ _ _ Htr), (events_since_app _ _ _ Htr3).
    rewrite Htr2, <- app_assoc in Htr3.
    rewrite (events_since_after _ _ _ _ Htr3).
    rewrite !read_attempts_app. cbn [read_attempts]. lia.
Qed.

(** C4: when the first attempt fails with [err], the alternative
    method is chosen from the text of [err]: "lz4" if it contains the
    gzip header text, else "gzip" if it contains the lz4 magic-number
    text, else none; and the function acts on that choice: with no
    alternative there is no further attempt, otherwise the attempt
    on the second stream uses the chosen method. *)
Theorem DecompressAndVerifyWithFallback_classifies
  blkFile decompression checksum (w w1 : World D)
  (rc : ReadCloser) (err : error) :
  readBlockWithRetry blkFile w = (Ok rc, w1) ->
  DecompressAndVerify decompression rc checksum = Err err ->
  let alt := alternativeDecompression err in
  let w2 := after w1 [EvDecompressAndVerify decompression rc checksum (Err err)] in
  let out := DecompressAndVerifyWithFallback blkFile decompression checksum w in
  (Contains (Error err) (Error gzip_ErrHeader) = true -> alt = "lz4") /\
  (Contains (Error err) (Error gzip_ErrHeader) = false ->
   Contains (Error err) "lz4: bad magic number" = true -> alt = "gzip") /\
  (Contains (Error err) (Error gzip_ErrHeader) = false ->
   Contains (Error err) "lz4: bad magic number" = false -> alt = "") /\
  decompressions (events_since w (snd out)) =
    (decompression, rc) ::
    (if (alt =? "")%string then []
     else match fst (readBlockWithRetry blkFile w2) with
          | Ok retriedRc => [(alt, retriedRc)]
          | Err _ => []
          end).
Proof.
  intros Hread Hfail alt w2 out.
  pose proof (DecompressAndVerifyWithFallback_observed
                blkFile decompression checksum w) as Hobs.
  cbv zeta in Hobs. rewrite Hread, Hfail in Hobs. fold w2 alt out in Hobs.
  repeat split.
  - intros Hgz. subst alt. unfold alternativeDecompression.
    rewrite Hgz. reflexivity.
  - intros Hgz Hlz. subst alt. unfold alternativeDecompression.
    rewrite Hgz, Hlz. reflexivity.
  - intros Hgz Hlz. subst alt. unfold alternativeDecompression.
    rewrite Hgz, Hlz. reflexivity.
  - destruct (alt =? "")%string.
    + destruct Hobs as [_ Hobs]. unfold observe in Hobs.
      injection Hobs as Hd _ _. exact Hd.
    + destruct (readBlockWithRetry blkFile w2) as [[rc2 | err2] w3];
        destruct Hobs as [_ Hobs]; unfold observe in Hobs;
        injection Hobs as Hd _ _; exact Hd.
Qed.

(** C10: the alternative method comes from the text of the first
    failure alone.  Whatever method was requested, a text with the
    gzip header text makes the second attempt use "lz4" (also when
    "lz4" was the requested method, and also when the text holds the
    lz4 magic-number text as well, the gzip text being looked for
    first), a text with only the lz4 magic-number text makes it use
    "gzip", and two failures with the same text get the same
    alternative. *)
Theorem DecompressAndVerifyWithFallback_alternative_ignores_request
  blkFile decompression checksum (w w1 w3 : World D)
  (rc retriedRc : ReadCloser) (err : error) :
  readBlockWithRetry blkFile w = (Ok rc, w1) ->
  DecompressAndVerify decompression rc checksum = Err err ->
  readBlockWithRetry blkFile
    (after w1 [EvDecompressAndVerify decompression rc checksum (Err err)])
    = (Ok retriedRc, w3) ->
  let out := DecompressAndVerifyWithFallback blkFile decompression checksum w in
  (Contains (Error err) (Error gzip_ErrHeader) = true ->
   decompressions (events_since w (snd out))
     = [(decompression, rc); ("lz4", retriedRc)]) /\
  (Contains (Error err) (Error gzip_ErrHeader) = false ->
   Contains (Error err) "lz4: bad magic number" = true ->
   decompressions (events_since w (snd out))
     = [(decompression, rc); ("gzip", retriedRc)]) /\
  (forall err', Error err' = Error err ->
     alternativeDecompression err' = alternativeDecompression err).
Proof.
  intros Hread Hfail Hread2 out.
  pose proof (DecompressAndVerifyWithFallback_observed
                blkFile decompression checksum w) as Hobs.
  cbv zeta in Hobs. rewrite Hread, Hfail in Hobs. fold out in Hobs.
  repeat split.
  - intros Hgz. unfold alternativeDecompression in Hobs.
    rewrite Hgz in Hobs. cbn [String.eqb] in Hobs. rewrite Hread2 in Hobs.
    destruct Hobs as [_ Hobs]. unfold observe in Hobs.
    injection Hobs as Hd _ _. exact Hd.
  - intros Hgz Hlz. unfold alternativeDecompression in Hobs.
    rewrite Hgz, Hlz in Hobs. cbn [String.eqb] in Hobs. rewrite Hread2 in Hobs.
    destruct Hobs as [_ Hobs]. unfold observe in Hobs.
    injection Hobs as Hd _ _. exact Hd.
  - intros err' Htext. unfold alternativeDecompression. rewrite Htext.
    reflexivity.
Qed.

(** C9: on every path, the streams closed by the time the function
    returns are exactly the streams it acquired, the latest first. *)
Theorem DecompressAndVerifyWithFallback_closes_streams
  blkFile decompression checksum (w : World D) :
  let out := DecompressAndVerifyWithFallback blkFile decompression checksum w in
  closed (events_since w (snd out)) = rev (acquired (events_since w (snd out))).
Proof.
  intros out.
  pose proof (DecompressAndVerifyWithFallback_observed
                blkFile decompression checksum w) as Hobs.
  cbv zeta in Hobs. fold out in Hobs.
  destruct (readBlockWithRetry blkFile w) as [[rc | err] w1].
  - destruct (DecompressAndVerify decompression rc checksum) as [r | err].
    + destruct Hobs as [_ Hobs]. unfold observe in Hobs.
      injection Hobs as _ -> ->. reflexivity.
    + destruct (alternativeDecompression err =? "")%string.
      * destruct Hobs as [_ Hobs]. unfold observe in Hobs.
        injection Hobs as _ -> ->. reflexivity.
      * destruct (readBlockWithRetry blkFile _) as [[rc2 | err2] w3];
          destruct Hobs as [_ Hobs]; unfold observe in Hobs;
          injection Hobs as _ -> ->; reflexivity.
  - destruct Hobs as [_ Hobs]. unfold observe in Hobs.
    injection Hobs as _ -> ->. reflexivity.
Qed.

Lemma DecompressAndVerifyWithFallback_backoffDuration
  blkFile decompression checksum (w : World D) :
  backoffDuration
    (snd (DecompressAndVerifyWithFallback blkFile decompression checksum w))
  = backoffDuration w.
Proof.
  rewrite DecompressAndVerifyWithFallback_paths.
  destruct (readBlockWithRetry blkFile w) as [[rc | err] w1] eqn:Hread.
  - destruct (readBlockWithRetry_Ok _ _ _ _ Hread) as [Hbd _].
    destruct (DecompressAndVerify decompression rc checksum) as [r | err];
      [exact Hbd |].
    cbv zeta. destruct (alternativeDecompression err =? "")%string;
      [exact Hbd |].
    destruct (readBlockWithRetry blkFile (after w1 _))
      as [[rc2 | err2] w3] eqn:Hread2.
    + destruct (readBlockWithRetry_Ok _ _ _ _ Hread2) as [Hbd2 _].
      unfold after in *. cbn [snd backoffDuration] in *. congruence.
    + destruct (readBlockWithRetry_Err _ _ _ _ Hread2) as [Hbd2 _].
      unfold after in *. cbn [snd backoffDuration] in *. congruence.
  - destruct (readBlockWithRetry_Err _ _ _ _ Hread) as [Hbd _]. exact Hbd.
Qed.

(** C8: the schedule is the ten durations 1s, 5s, 30s, 2m, 5m, 15m,
    30m, 1h, 2h, 6h in this order, and no sequence of calls of
    [readBlockWithRetry] and [DecompressAndVerifyWithFallback],
    whatever the driver and the decompressor do, changes the
    variable that holds it. *)
Theorem backoffDuration_is_fixed (cs : list call) (w : World D) :
  backoffDuration_init
    = map (fun seconds => (seconds * 1000000000)%Z)
        [1; 5; 30; 2 * 60; 5 * 60; 15 * 60; 30 * 60;
         1 * 3600; 2 * 3600; 6 * 3600]%Z /\
  List.length backoffDuration_init = 10 /\
  backoffDuration (run_calls cs w) = backoffDuration w.
Proof.
  split; [reflexivity |]. split; [reflexivity |].
  revert w. induction cs as [| c cs IH]; intros w; [reflexivity |].
  cbn [run_calls]. rewrite IH. destruct c as [blkFile | blkFile dec sum].
  - apply readBlockWithRetry_frame.
  - apply DecompressAndVerifyWithFallback_backoffDuration.
Qed.

End Fallback.

(** ** The theorems at work on the test doubles *)

Lemma readBlockWithRetry_fails_k_then_succeeds_witness :
  let w := world0 (mkScripted [Err timeout_err; Err timeout_err; Ok rc_gzip_1]
                     (Err timeout_err)) in
  let out := readBlockWithRetry "blk" w in
  fst out = Ok rc_gzip_1 /\
  sleeps (events_since w (snd out)) = [time.Second; (5 * time.Second)%Z] /\
  read_attempts (events_since w (snd out)) = 3.
Proof.
  intros w out.
  pose proof (readBlockWithRetry_fails_k_then_succeeds "blk" w
                [timeout_err; timeout_err] rc_gzip_1
                eq_refl (le_S _ _ (le_S _ _ (le_S _ _ (le_S _ _ (le_S _ _ (le_S _ _ (le_S _ _ (le_S _ _ (le_n 2))))))))) eq_refl)
    as (Hres & _ & Hsleeps & Hreads & _).
  repeat split; assumption.
Defined.

Lemma readBlockWithRetry_always_failing_witness :
  let w := world0 (mkScripted [] (Err timeout_err)) in
  let out := readBlockWithRetry "blk" w in
  fst out = Err (wrap_read_failed timeout_err "blk" 11) /\
  List.length (sleeps (events_since w (snd out))) = 10 /\
  read_attempts (events_since w (snd out)) = 11.
Proof.
  intros w out.
  pose proof (@readBlockWithRetry_always_failing _ _ toyExternal "blk" w
                (repeat timeout_err 10) timeout_err eq_refl eq_refl eq_refl)
    as (Hres & _ & _ & _ & Hsleeps & Hreads & _).
  repeat split; assumption.
Defined.

Lemma DecompressAndVerifyWithFallback_first_read_fails_witness :
  let w := world0 (mkScripted [] (Err timeout_err)) in
  let out := @DecompressAndVerifyWithFallback _ _ toyExternal
               "blk" "gzip" "abc" w in
  fst out = Err (wrap_read_failed timeout_err "blk" 11) /\
  decompressions (events_since w (snd out)) = [].
Proof.
  intros w out.
  pose proof (@DecompressAndVerifyWithFallback_first_read_fails
                _ _ toyExternal "blk" "gzip" "abc" w
                (snd (readBlockWithRetry "blk" w))
                (wrap_read_failed timeout_err "blk" 11) eq_refl)
    as (Hout & Hd & _).
  split; [exact (f_equal fst Hout) | exact Hd].
Defined.

Lemma DecompressAndVerifyWithFallback_no_signature_witness :
  let w := world0 (mkScripted [Ok rc_gzip_1] (Err timeout_err)) in
  let out := @DecompressAndVerifyWithFallback _ _ toyExternal
               "blk" "gzip" "xyz" w in
  fst out = Err (wrap_verification_failed
                   (errNew "checksum verification failed for block") "blk") /\
  decompressions (events_since w (snd out)) = [("gzip", rc_gzip_1)] /\
  acquired (events_since w (snd out)) = [rc_gzip_1] /\
  read_attempts (events_since w (snd out)) = 1.
Proof.
  intros w out.
  pose proof (@DecompressAndVerifyWithFallback_no_signature
                _ _ toyExternal "blk" "gzip" "xyz" w
                (snd (readBlockWithRetry "blk" w)) rc_gzip_1
                (errNew "checksum verification failed for block")
                eq_refl eq_refl eq_refl eq_refl)
    as (Hres & _ & _ & _ & Hd & Ha & Hr & _).
  repeat split; assumption.
Defined.

Lemma DecompressAndVerifyWithFallback_one_fallback_witness :
  let w := world0 (mkScripted [Ok rc_lz4_1; Ok rc_lz4_2] (Err timeout_err)) in
  let out := @DecompressAndVerifyWithFallback _ _ toyExternal
               "blk" "gzip" "abc" w in
  fst out = Ok (mkReader "abc") /\
  decompressions (events_since w (snd out))
    = [("gzip", rc_lz4_1); ("lz4", rc_lz4_2)] /\
  acquired (events_since w (snd out)) = [rc_lz4_1; rc_lz4_2].
Proof.
  intros w out.
  pose proof (@DecompressAndVerifyWithFallback_one_fallback
                _ _ toyExternal "blk" "gzip" "abc" w
                (snd (readBlockWithRetry "blk" w)) rc_lz4_1
                (errWrap (errNew "gzip: invalid header")
                   "failed to get decompression reader with method gzip")
                eq_refl eq_refl eq_refl)
    as Hthm.
  vm_compute in Hthm. destruct Hthm as (Hres & Hd & Ha & _).
  repeat split; assumption.
Defined.

(** C3 as stated fails: the backend hands out the first stream and
    then fails for good.  The first attempt fails with the gzip
    header signature, yet only one stream is acquired, only one
    attempt is made, and the result is neither a reader nor a wrapped
    second failure: it is the retry error of the second acquisition. *)
Lemma DecompressAndVerifyWithFallback_second_read_can_fail :
  let w := world0 (mkScripted [Ok rc_lz4_1] (Err timeout_err)) in
  let out := @DecompressAndVerifyWithFallback _ _ toyExternal
               "blk" "gzip" "abc" w in
  (exists err,
      toyDecompressAndVerify "gzip" rc_lz4_1 "abc" = Err err /\
      Contains (@Error toyExternal err) "gzip: invalid header" = true) /\
  fst out = Err (wrap_read_failed timeout_err "blk" 11) /\
  ~ (List.length (acquired (events_since w (snd out))) = 2 /\
     List.length (decompressions (events_since w (snd out))) = 2).
Proof.
  intros w out. split; [| split].
  - eexists. split; reflexivity.
  - reflexivity.
  - vm_compute. intros [Hacq _]. discriminate Hacq.
Qed.

Lemma DecompressAndVerifyWithFallback_classifies_witness :
  let w := world0 (mkScripted [Ok rc_gzip_1; Ok rc_gzip_1] (Err timeout_err)) in
  let out := @DecompressAndVerifyWithFallback _ _ toyExternal
               "blk" "lz4" "abc" w in
  @alternativeDecompression toyExternal
    (errWrap (errNew "lz4: bad magic number")
       "failed to read decompressed data") = "gzip" /\
  decompressions (events_since w (snd out))
    = [("lz4", rc_gzip_1); ("gzip", rc_gzip_1)].
Proof.
  intros w out.
  pose proof (@DecompressAndVerifyWithFallback_classifies
                _ _ toyExternal "blk" "lz4" "abc" w
                (snd (readBlockWithRetry "blk" w)) rc_gzip_1
                (errWrap (errNew "lz4: bad magic number")
                   "failed to read decompressed data")
                eq_refl eq_refl)
    as (_ & Hlz & _ & Hd).
  split; [exact (Hlz eq_refl eq_refl) | exact Hd].
Defined.

Lemma DecompressAndVerifyWithFallback_alternative_ignores_request_witness :
  let w := world0 (mkScripted [Ok rc_lz4_1; Ok rc_lz4_2] (Err timeout_err)) in
  let out := @DecompressAndVerifyWithFallback _ _ rejectingExternal
               "blk" "lz4" "abc" w in
  decompressions (events_since w (snd out))
    = [("lz4", rc_lz4_1); ("lz4", rc_lz4_2)].
Proof.
  intros w out.
  pose proof (@DecompressAndVerifyWithFallback_alternative_ignores_request
                _ _ rejectingExternal "blk" "lz4" "abc" w
                (snd (readBlockWithRetry "blk" w))
                (snd (readBlockWithRetry "blk"
                        (after (snd (readBlockWithRetry "blk" w))
                           [EvDecompressAndVerify "lz4" rc_lz4_1 "abc"
                              (Err (errNew "gzip: invalid header (lz4: bad magic number)"))])))
                rc_lz4_1 rc_lz4_2
                (errNew "gzip: invalid header (lz4: bad magic number)")
                eq_refl eq_refl eq_refl)
    as (Hgz & _ & _).
  exact (Hgz eq_refl).
Defined.

(** ** mergeErrorChannels: the invariant *)

Lemma piece_eq_dec (p1 p2 : piece) : {p1 = p2} + {p1 <> p2}.
Proof. decide equality; solve [apply string_dec | apply Nat.eq_dec]. Defined.

Lemma error_eq_dec (e1 e2 : error) : {e1 = e2} + {e1 <> e2}.
Proof.
  decide equality;
    solve [apply string_dec | apply (list_eq_dec piece_eq_dec)].
Defined.

Lemma update_middle {A} (l1 l2 : list A) (x y : A) :
  update (List.length l1) y (l1 ++ x :: l2) = l1 ++ y :: l2.
Proof. induction l1 as [| z l1 IH]; simpl; [| rewrite IH]; reflexivity. Qed.

Lemma update_length {A} (l : list A) i y :
  List.length (update i y l) = List.length l.
Proof.
  revert i. induction l as [| z l IH]; intros [| i]; simpl;
    try rewrite IH; reflexivity.
Qed.

(** Permutations of errors, by counting. *)
Ltac count_errors :=
  let x := fresh "x" in
  apply (proj2 (Permutation_count_occ error_eq_dec _ _)); intros x;
  repeat match goal with
         | Hp : Permutation _ _ |- _ =>
           pose proof (proj1 (Permutation_count_occ error_eq_dec _ _) Hp x);
           clear Hp
         end;
  repeat rewrite ?count_occ_app in *;
  cbn [count_occ held emitted_by src fwd app] in *;
  repeat rewrite ?count_occ_app in *;
  repeat match goal with
         | |- context [error_eq_dec ?a ?b] => destruct (error_eq_dec a b)
         | Hc : context [error_eq_dec ?a ?b] |- _ => destruct (error_eq_dec a b)
         end;
  cbn [count_occ] in *; lia.

Lemma initial_lanes (cancelled : bool) (channels : list Source) :
  forallb will_produce channels = true ->
  List.length (map (fun c => mkLane c AtSelect) channels) = List.length channels /\
  list_sum (map unfinished (map (fun c => mkLane c AtSelect) channels))
    = List.length channels /\
  list_sum (map may_send (map (fun c => mkLane c AtSelect) channels))
    = List.length channels /\
  forallb (lane_ok cancelled) (map (fun c => mkLane c AtSelect) channels) = true /\
  flat_map held (map (fun c => mkLane c AtSelect) channels)
    = flat_map emitted_by channels.
Proof.
  induction channels as [| c channels IH]; simpl; intros Hwf.
  - repeat split; reflexivity.
  - apply andb_true_iff in Hwf as [Hc Hwf].
    destruct (IH Hwf) as (H1 & H2 & H3 & H4 & H5).
    rewrite H1, H2, H3, H4, H5.
    repeat split; try reflexivity.
    + destruct c; simpl in *; try reflexivity; discriminate.
    + unfold held. cbn [src fwd]. rewrite app_nil_r. reflexivity.
Qed.

Lemma Inv_initial (cancelled : bool) (channels : list Source) :
  forallb will_produce channels = true ->
  Inv (flat_map emitted_by channels) (mergeErrorChannels cancelled channels).
Proof.
  intros Hwf.
  destruct (initial_lanes cancelled channels Hwf) as (H1 & H2 & H3 & H4 & H5).
  constructor; cbn [mergeErrorChannels panicked out_cap lanes wg out_buf closer
                    out_closes ctx_done delivered List.length app Nat.add].
  - reflexivity.
  - symmetry. exact H1.
  - symmetry. exact H2.
  - rewrite H3. apply le_n.
  - reflexivity.
  - exact H4.
  - rewrite H5. apply Permutation_refl.
Qed.

Lemma lane_ok_cancel (ls : list lane) :
  forallb (lane_ok false) ls = true -> forallb (lane_ok true) ls = true.
Proof.
  induction ls as [| [c f] ls IH]; simpl; [reflexivity |].
  intros Hl. apply andb_true_iff in Hl as [Hx Hl].
  rewrite (IH Hl), andb_true_r.
  destruct f, c; simpl in *; try reflexivity; discriminate.
Qed.

(** Bring the aggregates over [l1 ++ x :: l2] to sums of their parts. *)
Ltac split_lanes :=
  rewrite ?update_middle in *;
  rewrite ?length_app, ?map_app, ?list_sum_app, ?forallb_app, ?flat_map_app in *;
  cbn [List.length map list_sum forallb flat_map fold_right] in *;
  repeat match goal with
         | Hb : (_ && _)%bool = true |- _ => apply andb_true_iff in Hb as [? ?]
         end.

Ltac finish_lane :=
  constructor;
  cbn [panicked out_cap lanes wg out_buf closer out_closes ctx_done delivered] in *;
  split_lanes;
  cbn [lane_ok may_send unfinished is_returned src fwd] in *;
  first
    [ reflexivity
    | lia
    | assumption
    | solve [repeat (apply andb_true_iff; split); solve [assumption | reflexivity]]
    | solve [count_errors]
    | idtac ].

Lemma Inv_exec errs a s s' :
  Inv errs s -> exec a s = Some s' -> Inv errs s'.
Proof.
  intros [Hp Hcap Hwg Hroom Hcl Hl Hperm] Hexec.
  destruct s as [cd ls w c cap buf closes del pan].
  cbn [panicked out_cap lanes wg out_buf closer out_closes ctx_done delivered] in *.
  subst pan. unfold exec in Hexec.
  cbn [panicked out_cap lanes wg out_buf closer out_closes ctx_done delivered] in Hexec.
  destruct a as [| i | i | i | i | i | | |];
    try (destruct (nth_error ls i) as [[sc f] |] eqn:Hnth; [| discriminate];
         apply nth_error_split in Hnth as (l1 & l2 & -> & <-);
         unfold exec_lane, set_lane, panic in Hexec;
         cbn [panicked out_cap lanes wg out_buf closer out_closes ctx_done
              delivered src fwd] in Hexec).
  - destruct cd; [discriminate |]. injection Hexec as <-.
    constructor; cbn; auto using lane_ok_cancel.
  - destruct f, sc; try discriminate; injection Hexec as <-; finish_lane.
  - destruct f, sc; try discriminate; injection Hexec as <-; finish_lane.
  - destruct f; try discriminate; destruct cd; try discriminate;
      injection Hexec as <-; destruct sc; finish_lane.
  - destruct f; try discriminate.
    destruct (0 <? closes)%nat eqn:Hclosed.
    + exfalso. apply Nat.ltb_lt in Hclosed. split_lanes.
      cbn [unfinished is_returned fwd] in *.
      destruct c; [| destruct Hcl | destruct Hcl]; lia.
    + apply Nat.ltb_ge in Hclosed.
      destruct (List.length buf <? cap)%nat eqn:Hfull; [| discriminate].
      apply Nat.ltb_lt in Hfull.
      injection Hexec as <-; destruct sc; finish_lane.
  - destruct f; try discriminate. destruct w as [| k].
    + exfalso. split_lanes. cbn [unfinished is_returned fwd] in *. lia.
    + injection Hexec as <-; destruct sc; finish_lane.
      all: destruct c; [| destruct Hcl | destruct Hcl]; first [lia | split; lia].
  - destruct c; try discriminate. destruct w; try discriminate.
    injection Hexec as <-. constructor; cbn; auto.
  - destruct c; try discriminate. destruct Hcl as [-> ->].
    cbn in Hexec. injection Hexec as <-. constructor; cbn; auto.
  - destruct buf as [| err rest]; [discriminate |]. injection Hexec as <-.
    constructor;
      cbn [panicked out_cap lanes wg out_buf closer out_closes ctx_done
           delivered List.length] in *; auto; try lia.
    count_errors.
Qed.

Lemma Inv_run errs acts :
  forall s s', Inv errs s -> run acts s = Some s' -> Inv errs s'.
Proof.
  induction acts as [| a acts IH]; intros s s' Hinv Hrun; simpl in Hrun.
  - injection Hrun as <-. exact Hinv.
  - destruct (exec a s) as [s1 |] eqn:Hexec; [| discriminate].
    exact (IH s1 s' (Inv_exec errs a s s1 Hinv Hexec) Hrun).
Qed.

(** ** mergeErrorChannels: every run is finite *)

Lemma fuel_exec a s s' : exec a s = Some s' -> fuel s' < fuel s.
Proof.
  intros Hexec. destruct s as [cd ls w c cap buf closes del pan].
  unfold exec in Hexec.
  cbn [panicked out_cap lanes wg out_buf closer out_closes ctx_done delivered]
    in Hexec.
  destruct pan; [discriminate |].
  destruct a as [| i | i | i | i | i | | |].
  1: { destruct cd; [discriminate |]. injection Hexec as <-.
       unfold fuel. cbn. lia. }
  1-5: destruct (nth_error ls i) as [[sc f] |] eqn:Hnth; [| discriminate];
    apply nth_error_split in Hnth as (l1 & l2 & -> & <-);
    unfold exec_lane, set_lane, panic in Hexec;
    cbn [panicked out_cap lanes wg out_buf closer out_closes ctx_done
         delivered src fwd] in Hexec;
    destruct f, sc; try discriminate;
    repeat match type of Hexec with
           | (if ?b then _ else _) = _ => destruct b
           | match ?n with O => _ | S _ => _ end = _ => destruct n
           end;
    try discriminate; injection Hexec as <-; unfold fuel;
    cbn [panicked out_cap lanes wg out_buf closer out_closes ctx_done
         delivered];
    split_lanes; cbn [lane_fuel src fwd Nat.add]; rewrite ?length_app;
    cbn [List.length]; lia.
  - destruct c; try discriminate. destruct w; try discriminate.
    injection Hexec as <-. unfold fuel. cbn. lia.
  - destruct c; try discriminate. destruct (0 <? closes)%nat;
      injection Hexec as <-; unfold fuel; cbn; lia.
  - destruct buf as [| err rest]; [discriminate |]. injection Hexec as <-.
    unfold fuel. cbn. lia.
Qed.

Lemma fuel_run acts :
  forall s s', run acts s = Some s' -> List.length acts + fuel s' <= fuel s.
Proof.
  induction acts as [| a acts IH]; intros s s' Hrun; simpl in Hrun.
  - injection Hrun as <-. simpl. lia.
  - destruct (exec a s) as [s1 |] eqn:Hexec; [| discriminate].
    pose proof (fuel_exec _ _ _ Hexec). pose proof (IH _ _ Hrun). simpl. lia.
Qed.

(** ** mergeErrorChannels: where runs end *)

Lemma quiescent_exec s a :
  quiescent s = true -> In a (steps (List.length (lanes s))) -> exec a s = None.
Proof.
  unfold quiescent. intros Hq Hin.
  rewrite forallb_forall in Hq. specialize (Hq a Hin).
  destruct (exec a s); [discriminate | reflexivity].
Qed.

Lemma steps_of_lane_in n i a :
  i < n -> In a (steps_of_lane i) -> In a (steps n).
Proof.
  intros Hi Hin. unfold steps. do 3 right.
  apply in_flat_map. exists i. split; [| exact Hin].
  apply in_seq. lia.
Qed.

(** In a quiescent state every forwarder has returned. *)
Lemma quiescent_lane errs s i l :
  Inv errs s -> quiescent s = true ->
  nth_error (lanes s) i = Some l -> is_returned l = true.
Proof.
  intros [Hp Hcap Hwg Hroom Hcl Hl Hperm] Hq Hnth.
  assert (Hi : i < List.length (lanes s))
    by (apply nth_error_Some; congruence).
  assert (Hstuck : forall a, In a (steps_of_lane i) -> exec_lane a i l s = None).
  { intros a Hin.
    pose proof (quiescent_exec s a Hq (steps_of_lane_in _ _ _ Hi Hin)) as Hnone.
    unfold exec in Hnone. rewrite Hp in Hnone.
    destruct Hin as [<- | [<- | [<- | [<- | [<- | []]]]]];
      rewrite Hnth in Hnone; exact Hnone. }
  destruct s as [cd ls w c cap buf closes del pan].
  cbn [panicked out_cap lanes wg out_buf closer out_closes ctx_done delivered] in *.
  apply nth_error_split in Hnth as (l1 & l2 & -> & <-).
  destruct l as [sc f]. unfold is_returned. cbn [fwd].
  split_lanes.
  assert (Hprod : exec_lane (EnvProduce (List.length l1)) (List.length l1)
                    (mkLane sc f) (mkState cd (l1 ++ mkLane sc f :: l2) w c cap
                                     buf closes del pan) = None)
    by (apply Hstuck; simpl; auto 10).
  assert (Hrecv : exec_lane (FwdRecv (List.length l1)) (List.length l1)
                    (mkLane sc f) (mkState cd (l1 ++ mkLane sc f :: l2) w c cap
                                     buf closes del pan) = None)
    by (apply Hstuck; simpl; auto 10).
  assert (Hsend : exec_lane (FwdSend (List.length l1)) (List.length l1)
                    (mkLane sc f) (mkState cd (l1 ++ mkLane sc f :: l2) w c cap
                                     buf closes del pan) = None)
    by (apply Hstuck; simpl; auto 10).
  assert (Hdone : exec_lane (FwdReturn (List.length l1)) (List.length l1)
                    (mkLane sc f) (mkState cd (l1 ++ mkLane sc f :: l2) w c cap
                                     buf closes del pan) = None)
    by (apply Hstuck; simpl; auto 10).
  clear Hstuck Hq. unfold exec_lane in *.
  cbn [panicked out_cap lanes wg out_buf closer out_closes ctx_done
       delivered src fwd] in *.
  destruct f; [| | | reflexivity]; exfalso;
    cbn [lane_ok may_send unfinished is_returned src fwd] in *.
  - (* in the select *)
    destruct sc; discriminate.
  - (* at the send *)
    destruct (0 <? closes)%nat eqn:Hclosed; [discriminate Hsend |].
    destruct (List.length buf <? cap)%nat eqn:Hfull; [discriminate Hsend |].
    apply Nat.ltb_ge in Hfull. lia.
  - (* at the return *)
    destruct w; discriminate Hdone.
Qed.

Lemma quiescent_all_returned errs s :
  Inv errs s -> quiescent s = true -> forallb is_returned (lanes s) = true.
Proof.
  intros Hinv Hq. apply forallb_forall. intros l Hin.
  apply In_nth_error in Hin as [i Hnth].
  exact (quiescent_lane errs s i l Hinv Hq Hnth).
Qed.

Lemma all_returned_unfinished ls :
  forallb is_returned ls = true -> list_sum (map unfinished ls) = 0.
Proof.
  induction ls as [| l ls IH]; [reflexivity |].
  cbn [forallb]. intros Hl. apply andb_true_iff in Hl as [Hx Hl].
  change (list_sum (map unfinished (l :: ls)))
    with (unfinished l + list_sum (map unfinished ls)).
  unfold unfinished at 1. rewrite Hx, (IH Hl). reflexivity.
Qed.

Lemma all_returned_held ls :
  forallb is_returned ls = true -> forallb (lane_ok false) ls = true ->
  flat_map held ls = [].
Proof.
  induction ls as [| [sc f] ls IH]; simpl; [reflexivity |].
  intros Hr Hok. apply andb_true_iff in Hr as [Hx Hr].
  apply andb_true_iff in Hok as [Hy Hok]. rewrite (IH Hr Hok), app_nil_r.
  destruct f, sc; cbn in *; try discriminate; reflexivity.
Qed.

(** A quiescent state has [out] closed once and drained. *)
Lemma quiescent_closed errs s :
  Inv errs s -> quiescent s = true ->
  closer s = Finished /\ out_closes s = 1 /\ out_buf s = [].
Proof.
  intros Hinv Hq.
  pose proof (quiescent_all_returned errs s Hinv Hq) as Hret.
  pose proof (all_returned_unfinished _ Hret) as Hsum.
  destruct Hinv as [Hp Hcap Hwg Hroom Hcl Hl Hperm].
  pose proof (quiescent_exec s CloserWait Hq (or_introl eq_refl)) as Hwait.
  pose proof (quiescent_exec s CloserClose Hq (or_intror (or_introl eq_refl)))
    as Hclose.
  pose proof (quiescent_exec s Consume Hq
                (or_intror (or_intror (or_introl eq_refl)))) as Hcons.
  unfold exec in Hwait, Hclose, Hcons. rewrite Hp in Hwait, Hclose, Hcons.
  rewrite Hwg, Hsum in Hwait.
  destruct (closer s).
  - discriminate Hwait.
  - destruct (0 <? out_closes s)%nat; discriminate Hclose.
  - destruct Hcl as [Hc _]. destruct (out_buf s); [auto | discriminate Hcons].
Qed.

Lemma unfinished_all_returned ls :
  list_sum (map unfinished ls) = 0 -> forallb is_returned ls = true.
Proof.
  induction ls as [| l ls IH]; [reflexivity |].
  change (list_sum (map unfinished (l :: ls)))
    with (unfinished l + list_sum (map unfinished ls)).
  unfold unfinished at 1. cbn [forallb]. intros Hsum.
  destruct (is_returned l); [| discriminate]. apply IH. exact Hsum.
Qed.

(** [out] is closed at most once, and not before every forwarder has
    returned. *)
Lemma closed_after_forwarders errs s :
  Inv errs s ->
  out_closes s <= 1 /\
  (out_closes s = 1 -> forallb is_returned (lanes s) = true).
Proof.
  intros [Hp Hcap Hwg Hroom Hcl Hl Hperm].
  destruct (closer s).
  - split; [lia | intros Hone; lia].
  - destruct Hcl as [Hc Hw]. split; [lia | intros Hone; lia].
  - destruct Hcl as [Hc Hw]. split; [lia |]. intros _.
    apply unfinished_all_returned. congruence.
Qed.

(** A forwarder at [out <- err] can always send: there is room in
    the buffer and [out] is not closed. *)
Lemma send_never_blocks errs s i l err :
  Inv errs s -> nth_error (lanes s) i = Some l -> fwd l = AtSend err ->
  exists s',
    exec (FwdSend i) s = Some s' /\
    out_buf s' = out_buf s ++ [err] /\
    panicked s' = false.
Proof.
  intros [Hp Hcap Hwg Hroom Hcl Hl Hperm] Hnth Hfwd.
  unfold exec. rewrite Hp, Hnth. unfold exec_lane. rewrite Hfwd.
  destruct s as [cd ls w c cap buf closes del pan].
  cbn [panicked out_cap lanes wg out_buf closer out_closes ctx_done delivered] in *.
  apply nth_error_split in Hnth as (l1 & l2 & -> & <-).
  destruct l as [sc f]. cbn [fwd src] in *. subst f. split_lanes.
  cbn [may_send unfinished is_returned fwd] in *.
  assert (Hopen : (0 <? closes)%nat = false).
  { apply Nat.ltb_ge. destruct c; [| destruct Hcl | destruct Hcl]; lia. }
  assert (Hfree : (List.length buf <? cap)%nat = true)
    by (apply Nat.ltb_lt; lia).
  rewrite Hopen, Hfree. eexists. split; [reflexivity |].
  cbn [out_buf panicked]. auto.
Qed.

Lemma values_from_sources errs s :
  Inv errs s -> exists rest, Permutation errs (out_sent s ++ rest).
Proof.
  intros Hinv. exists (flat_map held (lanes s)).
  unfold out_sent. rewrite <- app_assoc. apply (inv_conserve _ _ Hinv).
Qed.

(** Without cancellation a quiescent state has delivered every error
    of the sources. *)
Lemma quiescent_delivered errs s :
  Inv errs s -> quiescent s = true -> ctx_done s = false ->
  Permutation errs (delivered s).
Proof.
  intros Hinv Hq Hctx.
  pose proof (quiescent_all_returned errs s Hinv Hq) as Hret.
  destruct (quiescent_closed errs s Hinv Hq) as (_ & _ & Hbuf).
  destruct Hinv as [Hp Hcap Hwg Hroom Hcl Hl Hperm].
  rewrite Hctx in Hl.
  rewrite Hbuf, (all_returned_held _ Hret Hl), !app_nil_r in Hperm.
  exact Hperm.
Qed.

(** ** mergeErrorChannels: no receive, no value *)

Lemma nothing_forwarded_exec a s s' :
  exec a s = Some s' -> is_recv a = false ->
  nothing_forwarded s -> nothing_forwarded s'.
Proof.
  intros Hexec Hrecv [Hsent Hlanes].
  destruct s as [cd ls w c cap buf closes del pan].
  unfold nothing_forwarded, out_sent in *.
  cbn [panicked out_cap lanes wg out_buf closer out_closes ctx_done delivered] in *.
  apply app_eq_nil in Hsent as [-> ->].
  unfold exec in Hexec.
  cbn [panicked out_cap lanes wg out_buf closer out_closes ctx_done delivered]
    in Hexec.
  destruct pan; [discriminate |].
  destruct a as [| i | i | i | i | i | | |]; try discriminate Hrecv.
  1: { destruct cd; [discriminate |]. injection Hexec as <-. cbn. auto. }
  1-4: destruct (nth_error ls i) as [[sc f] |] eqn:Hnth; [| discriminate];
    apply nth_error_split in Hnth as (l1 & l2 & -> & <-);
    unfold exec_lane, set_lane, panic in Hexec;
    cbn [panicked out_cap lanes wg out_buf closer out_closes ctx_done
         delivered src fwd] in Hexec;
    split_lanes; cbn [fwd] in *;
    destruct f, sc; try discriminate;
    repeat match type of Hexec with
           | (if ?b then _ else _) = _ => destruct b
           | match ?n with O => _ | S _ => _ end = _ => destruct n
           end;
    try discriminate; injection Hexec as <-;
    cbn [panicked out_cap lanes wg out_buf closer out_closes ctx_done
         delivered];
    split_lanes; cbn [fwd app]; (split; [reflexivity |]);
    repeat (apply andb_true_iff; split); solve [assumption | reflexivity].
  - destruct c; try discriminate. destruct w; try discriminate.
    injection Hexec as <-. cbn. auto.
  - destruct c; try discriminate. destruct (0 <? closes)%nat;
      injection Hexec as <-; cbn; auto.
  - discriminate.
Qed.

Lemma nothing_forwarded_run acts :
  forall s s', run acts s = Some s' -> existsb is_recv acts = false ->
               nothing_forwarded s -> nothing_forwarded s'.
Proof.
  induction acts as [| a acts IH]; intros s s' Hrun Hrecv Hnone;
    simpl in Hrun, Hrecv.
  - injection Hrun as <-. exact Hnone.
  - destruct (exec a s) as [s1 |] eqn:Hexec; [| discriminate].
    apply orb_false_iff in Hrecv as [Ha Hrecv].
    exact (IH s1 s' Hrun Hrecv (nothing_forwarded_exec a s s1 Hexec Ha Hnone)).
Qed.

Lemma nothing_forwarded_initial cancelled channels :
  nothing_forwarded (mergeErrorChannels cancelled channels).
Proof.
  split; [reflexivity |]. cbn [mergeErrorChannels lanes].
  induction channels as [| c channels IH]; simpl; auto.
Qed.

(** ** mergeErrorChannels: the merged channel *)

Lemma out_cap_exec a s s' : exec a s = Some s' -> out_cap s' = out_cap s.
Proof.
  intros Hexec. destruct s as [cd ls w c cap buf closes del pan].
  unfold exec in Hexec.
  cbn [panicked out_cap lanes wg out_buf closer out_closes ctx_done delivered]
    in Hexec.
  destruct pan; [discriminate |].
  destruct a as [| i | i | i | i | i | | |].
  1: { destruct cd; [discriminate |]. injection Hexec as <-. reflexivity. }
  1-5: destruct (nth_error ls i) as [[sc f] |]; [| discriminate];
    unfold exec_lane, set_lane, panic in Hexec;
    cbn [panicked out_cap lanes wg out_buf closer out_closes ctx_done
         delivered src fwd] in Hexec;
    destruct f, sc; try discriminate;
    repeat match type of Hexec with
           | (if ?b then _ else _) = _ => destruct b
           | match ?n with O => _ | S _ => _ end = _ => destruct n
           end;
    try discriminate; injection Hexec as <-; reflexivity.
  - destruct c; try discriminate. destruct w; try discriminate.
    injection Hexec as <-. reflexivity.
  - destruct c; try discriminate. destruct (0 <? closes)%nat;
      injection Hexec as <-; reflexivity.
  - destruct buf as [| err rest]; [discriminate |]. injection Hexec as <-.
    reflexivity.
Qed.

Lemma out_cap_run acts :
  forall s s', run acts s = Some s' -> out_cap s' = out_cap s.
Proof.
  induction acts as [| a acts IH]; intros s s' Hrun; simpl in Hrun.
  - injection Hrun as <-. reflexivity.
  - destruct (exec a s) as [s1 |] eqn:Hexec; [| discriminate].
    rewrite (IH _ _ Hrun). exact (out_cap_exec _ _ _ Hexec).
Qed.




(** ** mergeErrorChannels: when [out] is closed, and that it is *)

(** X7: without cancellation [out] is not closed early: once it is
    closed, no channel is still to emit or to close, and every error
    of the sources has been sent on [out], so a consumer that reads
    until [out] is closed gets them all. *)
Theorem mergeErrorChannels_closes_after_sources
  (channels : list Source) (acts : list action) (s : MergeState) :
  forallb will_produce channels = true ->
  run acts (mergeErrorChannels false channels) = Some s ->
  ctx_done s = false ->
  out_closes s = 1 ->
  existsb (fun l => pending (src l)) (lanes s) = false /\
  Permutation (flat_map emitted_by channels) (out_sent s) /\
  List.length (out_sent s) = List.length (flat_map emitted_by channels).
Proof.
  intros Hwf Hrun Hctx Hclosed.
  pose proof (Inv_run _ _ _ _ (Inv_initial false channels Hwf) Hrun) as Hinv.
  destruct (closed_after_forwarders _ s Hinv) as [_ Hret].
  specialize (Hret Hclosed).
  destruct Hinv as [Hp Hcap Hwg Hroom Hcl Hl Hperm].
  rewrite Hctx in Hl.
  rewrite (all_returned_held _ Hret Hl), app_nil_r in Hperm.
  split; [| split; [exact Hperm | symmetry; exact (Permutation_length Hperm)]].
  clear - Hret Hl. induction (lanes s) as [| [sc f] ls IH]; [reflexivity |].
  cbn [forallb existsb src] in *.
  apply andb_true_iff in Hret as [Hx Hret].
  apply andb_true_iff in Hl as [Hy Hl].
  rewrite (IH Hl Hret), orb_false_r.
  destruct f, sc; cbn in *; try discriminate; reflexivity.
Qed.

Lemma cancel_forwarders cap :
  forall (rest : list Source) (finished : list lane) (k : nat),
    run (flat_map (fun i => [FwdDone i; FwdReturn i])
           (seq (List.length finished) (List.length rest)))
      (mkState true (finished ++ map (fun c => mkLane c AtSelect) rest)
         (k + List.length rest) AtWait cap [] 0 [] false)
    = Some (mkState true (finished ++ map (fun c => mkLane c Returned) rest)
              k AtWait cap [] 0 [] false).
Proof.
  induction rest as [| c rest IH]; intros finished k.
  - cbn [List.length seq flat_map map run]. rewrite Nat.add_0_r. reflexivity.
  - cbn [List.length seq flat_map map app run].
    unfold exec at 1.
    cbn [panicked lanes]. rewrite nth_error_app2, Nat.sub_diag by apply le_n.
    cbn [nth_error]. unfold exec_lane, set_lane.
    cbn [fwd src ctx_done lanes wg closer out_cap out_buf out_closes delivered
         panicked].
    rewrite update_middle.
    unfold exec at 1.
    cbn [panicked lanes]. rewrite nth_error_app2, Nat.sub_diag by apply le_n.
    cbn [nth_error]. unfold exec_lane.
    cbn [fwd src ctx_done lanes wg closer out_cap out_buf out_closes delivered
         panicked].
    rewrite Nat.add_succ_r, update_middle.
    specialize (IH (finished ++ [mkLane c Returned]) k).
    rewrite length_app, Nat.add_1_r, <- !app_assoc in IH. exact IH.
Qed.

(** X8: once [ctx] is done the channels are not needed for [out] to
    be closed: whatever state the channels are in, the forwarders can
    all return and [out] be closed, once, with nothing sent on it and
    no channel touched. *)
Theorem mergeErrorChannels_cancelled_closes (channels : list Source) :
  exists s,
    run (cancel_schedule (List.length channels))
      (mergeErrorChannels true channels) = Some s /\
    out_closes s = 1 /\
    closer s = Finished /\
    out_sent s = [] /\
    map src (lanes s) = channels /\
    forallb is_returned (lanes s) = true.
Proof.
  exists (mkState true (map (fun c => mkLane c Returned) channels)
            0 Finished (List.length channels) [] 1 [] false).
  split.
  - unfold cancel_schedule, mergeErrorChannels.
    assert (Hrun_app : forall acts1 acts2 s1 s2,
               run acts1 s1 = Some s2 -> run (acts1 ++ acts2) s1 = run acts2 s2).
    { induction acts1 as [| a acts1 IH]; intros acts2 s1 s2 Hrun; simpl in *.
      - injection Hrun as ->. reflexivity.
      - destruct (exec a s1); [apply IH; exact Hrun | discriminate]. }
    rewrite (Hrun_app _ _ _ _
               (cancel_forwarders (List.length channels) channels [] 0)).
    reflexivity.
  - cbn [out_closes closer out_sent delivered out_buf lanes app].
    repeat split.
    + rewrite map_map. cbn [src]. apply map_id.
    + induction channels as [| c channels IH]; [reflexivity | exact IH].
Qed.

Lemma forallb_false_exists {A} (f : A -> bool) (l : list A) :
  forallb f l = false -> exists x, In x l /\ f x = false.
Proof.
  induction l as [| y l IH]; simpl; [discriminate |].
  destruct (f y) eqn:Hy.
  - intros Hl. destruct (IH Hl) as (x & Hin & Hx). exists x. auto.
  - intros _. exists y. auto.
Qed.

Lemma steps_not_cancel n a : In a (steps n) -> is_cancel a = false.
Proof.
  unfold steps. intros [<- | [<- | [<- | Hin]]]; try reflexivity.
  apply in_flat_map in Hin as (i & _ & Hin).
  destruct Hin as [<- | [<- | [<- | [<- | [<- | []]]]]]; reflexivity.
Qed.

Lemma ctx_done_exec a s s' :
  is_cancel a = false -> exec a s = Some s' -> ctx_done s' = ctx_done s.
Proof.
  intros Hcancel Hexec. destruct s as [cd ls w c cap buf closes del pan].
  unfold exec in Hexec.
  cbn [panicked out_cap lanes wg out_buf closer out_closes ctx_done delivered]
    in Hexec.
  destruct pan; [discriminate |].
  destruct a as [| i | i | i | i | i | | |]; [discriminate Hcancel | ..].
  1-5: destruct (nth_error ls i) as [[sc f] |]; [| discriminate];
    unfold exec_lane, set_lane, panic in Hexec;
    cbn [panicked out_cap lanes wg out_buf closer out_closes ctx_done
         delivered src fwd] in Hexec;
    destruct f, sc; try discriminate;
    repeat match type of Hexec with
           | (if ?b then _ else _) = _ => destruct b
           | match ?n with O => _ | S _ => _ end = _ => destruct n
           end;
    try discriminate; injection Hexec as <-; reflexivity.
  - destruct c; try discriminate. destruct w; try discriminate.
    injection Hexec as <-. reflexivity.
  - destruct c; try discriminate. destruct (0 <? closes)%nat;
      injection Hexec as <-; reflexivity.
  - destruct buf as [| err rest]; [discriminate |]. injection Hexec as <-.
    reflexivity.
Qed.

(** From any state the program and the producers can run on, without
    a cancellation, until nothing more can happen. *)
Lemma run_to_quiescence :
  forall (bound : nat) (s : MergeState),
    fuel s <= bound ->
    exists acts s',
      run acts s = Some s' /\
      quiescent s' = true /\
      existsb is_cancel acts = false /\
      ctx_done s' = ctx_done s.
Proof.
  induction bound as [| bound IH]; intros s Hfuel;
    (destruct (quiescent s) eqn:Hq; [exists [], s; auto |]);
    apply forallb_false_exists in Hq as (a & Hin & Ha);
    (destruct (exec a s) as [s1 |] eqn:Hexec; [| discriminate]);
    pose proof (fuel_exec _ _ _ Hexec) as Hless.
  - lia.
  - destruct (IH s1) as (acts & s' & Hrun & Hq' & Hnc & Hctx); [lia |].
    pose proof (steps_not_cancel _ _ Hin) as Hcancel.
    exists (a :: acts), s'. cbn [run existsb]. rewrite Hexec, Hcancel.
    repeat split; auto.
    rewrite Hctx. exact (ctx_done_exec _ _ _ Hcancel Hexec).
Qed.

(** X9: the merge cannot get stuck.  From every state a schedule
    reaches, the goroutines, producers and consumer can go on,
    without any cancellation, to a state where nothing more can
    happen; there every forwarder has returned and [out] is closed
    exactly once and drained, and if [ctx] was not cancelled the
    consumer has received exactly the errors of the sources. *)
Theorem mergeErrorChannels_completes
  (cancelled : bool) (channels : list Source) (acts : list action)
  (s : MergeState) :
  forallb will_produce channels = true ->
  run acts (mergeErrorChannels cancelled channels) = Some s ->
  exists more s',
    run (acts ++ more) (mergeErrorChannels cancelled channels) = Some s' /\
    existsb is_cancel more = false /\
    quiescent s' = true /\
    forallb is_returned (lanes s') = true /\
    out_closes s' = 1 /\
    out_buf s' = [] /\
    (ctx_done s = false ->
     Permutation (flat_map emitted_by channels) (delivered s')).
Proof.
  intros Hwf Hrun.
  destruct (run_to_quiescence (fuel s) s (le_n _))
    as (more & s' & Hmore & Hq & Hnc & Hctx).
  assert (Hall : run (acts ++ more) (mergeErrorChannels cancelled channels)
                 = Some s').
  { clear - Hrun Hmore. revert Hrun.
    generalize (mergeErrorChannels cancelled channels).
    induction acts as [| a acts IH]; intros s0 Hrun; simpl in *.
    - injection Hrun as ->. exact Hmore.
    - destruct (exec a s0); [apply IH; exact Hrun | discriminate]. }
  pose proof (Inv_run _ _ _ _ (Inv_initial cancelled channels Hwf) Hall) as Hinv.
  destruct (quiescent_closed _ _ Hinv Hq) as (_ & Hone & Hbuf).
  exists more, s'.
  split; [exact Hall |]. split; [exact Hnc |]. split; [exact Hq |].
  split; [exact (quiescent_all_returned _ _ Hinv Hq) |].
  split; [exact Hone |]. split; [exact Hbuf |].
  intros Hs. apply (quiescent_delivered _ _ Hinv Hq). congruence.
Qed.

(** * Further properties *)

(** ** readBlockWithRetry: its bounds *)

Section RetryAnyDriver.

Context {D : Type} `{BackupStoreDriver D}.

(** X1: whatever the driver answers, [readBlockWithRetry] calls
    [Read] at least once and at most eleven times, always for the
    given block file, sleeps between two reads only, for the
    durations of the schedule from its start, and so for no more
    than 9h52m36s in all.  It returns the stream of its last read,
    or, only after eleven failed reads, the last failure wrapped. *)
Theorem readBlockWithRetry_bounded blkFile (w : World D) :
  backoffDuration w = backoffDuration_init ->
  let out := readBlockWithRetry blkFile w in
  let evs := events_since w (snd out) in
  1 <= read_attempts evs <= 11 /\
  reads_of evs = repeat blkFile (read_attempts evs) /\
  sleeps evs = firstn (read_attempts evs - 1) backoffDuration_init /\
  (0 <= total_sleep evs <= 35556 * time.Second)%Z /\
  match fst out with
  | Ok rc =>
    acquired evs = [rc] /\ last evs (EvSleep 0%Z) = EvRead blkFile (Ok rc)
  | Err err =>
    read_attempts evs = 11 /\
    acquired evs = [] /\
    exists err_last,
      err = wrap_read_failed err_last blkFile 11 /\
      last evs (EvSleep 0%Z) = EvRead blkFile (Err err_last)
  end.
Proof.
  intros Hbd out evs. subst evs out. unfold readBlockWithRetry.
  destruct (readBlockWithRetry_loop_shape blkFile 0 w (Nat.le_0_l _))
    as (errs & last & Htr & Hlen & Hlast).
  rewrite Hbd in Htr, Hlen, Hlast. cbn [skipn Nat.add] in Htr, Hlen, Hlast.
  assert (Hsched : List.length errs <= List.length backoffDuration_init)
    by exact Hlen.
  rewrite (events_since_app _ _ _ Htr).
  unfold total_sleep.
  rewrite read_attempts_app, reads_of_app, sleeps_app, acquired_app, last_last.
  rewrite retry_events_read_attempts, retry_events_sleeps by exact Hsched.
  destruct (retry_events_reads_of blkFile errs _ Hsched) as [-> _].
  destruct (retry_events_quiet blkFile errs backoffDuration_init) as (-> & _ & _).
  cbn [read_attempts reads_of sleeps acquired app].
  rewrite app_nil_r. replace (List.length errs + 1 - 1) with (List.length errs) by lia.
  change (List.length backoffDuration_init) with 10 in *.
  split; [lia |].
  split; [rewrite Nat.add_1_r, <- repeat_cons; reflexivity |].
  split; [reflexivity |].
  split; [apply schedule_prefix_sum |].
  destruct last as [rc | err].
  - rewrite Hlast. auto.
  - destruct Hlast as [Hfull ->]. split; [lia |]. split; [reflexivity |].
    exists err. auto.
Qed.

End RetryAnyDriver.

(** ** DecompressAndVerifyWithFallback, whatever the driver and the
       decompressor answer *)

Section FallbackAnyDriver.

Context {D : Type} `{BackupStoreDriver D} `{External}.

Lemma Forall_eq_repeat (x : string) n : Forall (eq x) (repeat x n).
Proof. induction n; simpl; constructor; auto. Qed.

Lemma events_since_after2 (w w' : World D) evs evs' :
  trace w' = trace w ++ evs ->
  events_since w (after w' evs') = evs ++ evs'.
Proof.
  intros Htr. apply events_since_app. unfold after. cbn [trace].
  rewrite Htr, app_assoc. reflexivity.
Qed.

(** Split every reading of a trace along its pieces. *)
Ltac read_pieces :=
  repeat rewrite ?read_attempts_app, ?reads_of_app, ?checksums_of_app,
    ?sleeps_app, ?acquired_app, ?decompressions_app, ?closed_app,
    ?total_sleep_app, ?length_app;
  cbn [read_attempts reads_of checksums_of sleeps acquired decompressions
       closed total_sleep fold_right app List.length].

(** X4: one call costs at most two acquisitions and two
    decompress-and-verify attempts, hence at most 22 reads and 20
    sleeps (19h45m12s); every read is for the given block file and
    every attempt is checked against the given checksum. *)
Theorem DecompressAndVerifyWithFallback_effort
  blkFile decompression checksum (w : World D) :
  backoffDuration w = backoffDuration_init ->
  let out := DecompressAndVerifyWithFallback blkFile decompression checksum w in
  let evs := events_since w (snd out) in
  List.length (acquired evs) <= 2 /\
  List.length (decompressions evs) <= 2 /\
  List.length (decompressions evs) <= List.length (acquired evs) /\
  read_attempts evs <= 22 /\
  List.length (sleeps evs) <= 20 /\
  (0 <= total_sleep evs <= 2 * (35556 * time.Second))%Z /\
  Forall (eq blkFile) (reads_of evs) /\
  Forall (eq checksum) (checksums_of evs).
Proof.
  intros Hbd out evs. subst evs out.
  rewrite DecompressAndVerifyWithFallback_paths.
  destruct (readBlockWithRetry_run blkFile w Hbd)
    as (evs1 & Htr1 & Hbd1 & Hr1 & Hs1 & Ht1 & Hb1 & Hc1 & Hd1 & Hcl1 & Ha1).
  destruct (readBlockWithRetry blkFile w) as [[rc | err] w1];
    cbn [fst snd] in *.
  - destruct (DecompressAndVerify decompression rc checksum) as [r | err].
    + cbn [fst snd]. rewrite (events_since_after2 _ _ _ _ Htr1). read_pieces.
      rewrite Hb1, Hc1, Hd1, Ha1. cbn [app List.length].
      pose proof (Forall_eq_repeat blkFile (read_attempts evs1)).
      rewrite app_nil_r.
      repeat split; try lia; auto.
    + cbv zeta.
      set (w2 := after w1 [EvDecompressAndVerify decompression rc checksum (Err err)]).
      assert (Htr2 : trace w2 = trace w ++ evs1
                       ++ [EvDecompressAndVerify decompression rc checksum (Err err)]).
      { subst w2. unfold after. cbn [trace]. rewrite Htr1, app_assoc. reflexivity. }
      destruct (alternativeDecompression err =? "")%string.
      * cbn [fst snd]. rewrite (events_since_after2 _ _ _ _ Htr2). read_pieces.
        rewrite Hb1, Hc1, Hd1, Ha1. cbn [app List.length].
        pose proof (Forall_eq_repeat blkFile (read_attempts evs1)).
        rewrite !app_nil_r.
        repeat split; try lia; auto.
      * assert (Hbd2 : backoffDuration w2 = backoffDuration_init) by exact Hbd1.
        destruct (readBlockWithRetry_run blkFile w2 Hbd2)
          as (evs2 & Htr3 & _ & Hr2 & Hs2 & Ht2 & Hb2 & Hc2 & Hd2 & Hcl2 & Ha2).
        rewrite Htr2, <- !app_assoc in Htr3.
        pose proof (Forall_eq_repeat blkFile (read_attempts evs1)).
        pose proof (Forall_eq_repeat blkFile (read_attempts evs2)).
        destruct (readBlockWithRetry blkFile w2) as [[rc2 | err2] w3];
          cbn [fst snd] in *;
          [| destruct Ha2 as [Ha2 _]];
          rewrite (events_since_after2 _ _ _ _ Htr3); read_pieces;
          rewrite Hb1, Hc1, Hd1, Ha1, Hb2, Hc2, Hd2, Ha2;
          cbn [app List.length]; rewrite ?app_nil_r;
          repeat split; try lia; auto using Forall_app.
        all: apply Forall_app; split; auto.
  - destruct Ha1 as [Ha1 _]. rewrite (events_since_app _ _ _ Htr1).
    rewrite Hb1, Hc1, Hd1, Ha1.
    pose proof (Forall_eq_repeat blkFile (read_attempts evs1)).
    cbn [List.length]. repeat split; try lia; auto.
Qed.

Lemma alternativeDecompression_range (err : error) :
  alternativeDecompression err = "lz4" \/
  alternativeDecompression err = "gzip" \/
  alternativeDecompression err = "".
Proof.
  unfold alternativeDecompression.
  destruct (Contains (Error err) (Error gzip_ErrHeader)); auto.
  destruct (Contains (Error err) "lz4: bad magic number"); auto.
Qed.

(** X3: a reader the function returns is one that
    [util.DecompressAndVerify] produced, in the last attempt of the
    call, from a stream acquired in this call and against the given
    checksum, with the requested method or with "lz4" or "gzip"; and
    that stream is closed by the time the function returns. *)
Theorem DecompressAndVerifyWithFallback_returns_verified
  blkFile decompression checksum (w : World D) (r : Reader) :
  let out := DecompressAndVerifyWithFallback blkFile decompression checksum w in
  let evs := events_since w (snd out) in
  fst out = Ok r ->
  exists method rc,
    last (decompressions evs) (decompression, mkReadCloser 0 "") = (method, rc) /\
    DecompressAndVerify method rc checksum = Ok r /\
    (method = decompression \/ method = "lz4" \/ method = "gzip") /\
    In rc (acquired evs) /\
    In rc (closed evs).
Proof.
  intros out evs Hres. subst evs.
  pose proof (DecompressAndVerifyWithFallback_observed
                blkFile decompression checksum w) as Hobs.
  cbv zeta in Hobs. fold out in Hobs.
  destruct (readBlockWithRetry blkFile w) as [[rc | err] w1].
  - destruct (DecompressAndVerify decompression rc checksum) as [r1 | err] eqn:Hdv.
    + destruct Hobs as [Hfst Hobs]. unfold observe in Hobs.
      injection Hobs as -> -> ->. exists decompression, rc.
      rewrite Hres in Hfst. injection Hfst as ->. simpl. auto 10.
    + destruct (alternativeDecompression err =? "")%string eqn:Halt.
      * destruct Hobs as [Hfst _]. congruence.
      * destruct (readBlockWithRetry blkFile _) as [[rc2 | err2] w3].
        -- destruct Hobs as [Hfst Hobs]. unfold observe in Hobs.
           injection Hobs as -> -> ->.
           exists (alternativeDecompression err), rc2.
           destruct (DecompressAndVerify (alternativeDecompression err) rc2
                       checksum) as [r2 | err2] eqn:Hdv2; [| congruence].
           rewrite Hres in Hfst. injection Hfst as ->.
           destruct (alternativeDecompression_range err) as [Ha | [Ha | Ha]];
             [| | rewrite Ha in Halt; discriminate];
             rewrite Ha in *; simpl; auto 10.
        -- destruct Hobs as [Hfst _]. congruence.
  - destruct Hobs as [Hout _]. rewrite Hout in Hres. discriminate.
Qed.

(** X5: when the first attempt verifies, its reader is returned at
    once: one acquisition, one attempt with the requested method, the
    stream closed, and the driver not called again, whatever the
    requested method is. *)
Theorem DecompressAndVerifyWithFallback_first_attempt_succeeds
  blkFile decompression checksum (w w1 : World D)
  (rc : ReadCloser) (r : Reader) :
  readBlockWithRetry blkFile w = (Ok rc, w1) ->
  DecompressAndVerify decompression rc checksum = Ok r ->
  let out := DecompressAndVerifyWithFallback blkFile decompression checksum w in
  out = (Ok r, after w1 [EvDecompressAndVerify decompression rc checksum (Ok r);
                         EvClose rc]) /\
  observe w (snd out) = ([(decompression, rc)], [rc], [rc]) /\
  bsDriver (snd out) = bsDriver w1 /\
  read_attempts (events_since w (snd out)) = read_attempts (events_since w w1).
Proof.
  intros Hread Hdv out.
  pose proof (DecompressAndVerifyWithFallback_observed
                blkFile decompression checksum w) as Hobs.
  cbv zeta in Hobs. fold out in Hobs. rewrite Hread, Hdv in Hobs.
  destruct Hobs as [_ Hobs]. subst out.
  rewrite DecompressAndVerifyWithFallback_paths, Hread, Hdv in *.
  cbn [snd] in *.
  destruct (readBlockWithRetry_Ok _ _ _ _ Hread) as [_ (evs & Htr & _)].
  rewrite (events_since_after2 _ _ _ _ Htr), (events_since_app _ _ _ Htr).
  rewrite read_attempts_app. cbn [read_attempts after bsDriver].
  rewrite Nat.add_0_r. auto.
Qed.

Lemma Contains_prefix (s rest : string) : Contains (s ++ rest)%string s = true.
Proof.
  assert (Hp : String.prefix s (s ++ rest)%string = true).
  { induction s as [| c s IH]; simpl; [destruct rest; reflexivity |].
    destruct (Ascii.ascii_dec c c); [exact IH | congruence]. }
  destruct s as [| c s]; [destruct rest; reflexivity |].
  cbn [append Contains] in *. rewrite Hp. reflexivity.
Qed.

Lemma Contains_middle (before s rest : string) :
  Contains (before ++ s ++ rest)%string s = true.
Proof.
  induction before as [| c before IH].
  - exact (Contains_prefix s rest).
  - cbn [append Contains]. rewrite IH.
    destruct (String.prefix s (String c (before ++ s ++ rest))); reflexivity.
Qed.

(** A message whose format starts with literal text and then prints
    a string shows that string as the errors library prints it. *)
Lemma Error_Wrapf_names (err : error) (c : ascii) (text blk : string)
  (prefix : list piece) :
  Contains (Error (Wrapf err (Lit (String c text) :: ArgV blk :: prefix)))
    (fmt_v blk) = true.
Proof.
  rewrite Error_Wrapf_Lit, render_cons. cbn [render_piece].
  rewrite append_assoc. apply (Contains_middle (String c text) (fmt_v blk)).
Qed.


End FallbackAnyDriver.

(** ** getBlockFilePath *)

Section Paths.

Context `{Layout}.

Lemma substring_length (s : string) : forall n m,
  n + m <= String.length s -> String.length (substring n m s) = m.
Proof.
  induction s as [| c s IH]; intros [| n] [| m] Hlen; simpl in *;
    try reflexivity; try lia.
  - rewrite IH by lia. reflexivity.
  - apply IH. lia.
  - apply IH. lia.
Qed.

Lemma substring_split (s : string) : forall a b,
  a + b <= String.length s ->
  (substring 0 a s ++ substring a b s)%string = substring 0 (a + b) s.
Proof.
  induction s as [| c s IH]; intros [| a] b Hlen; simpl in *.
  - destruct b; reflexivity.
  - lia.
  - destruct b; reflexivity.
  - rewrite IH by lia. reflexivity.
Qed.

Lemma substring_prefix (s : string) : forall n,
  String.prefix (substring 0 n s) s = true.
Proof.
  induction s as [| c s IH]; intros [| n]; simpl; try reflexivity.
  destruct (Ascii.ascii_dec c c); [apply IH | congruence].
Qed.

(** X2: [getBlockFilePath] panics exactly when the checksum is
    shorter than [BLOCK_SEPARATE_LAYER2] bytes (or the two layer
    bounds are out of order).  Otherwise the two directory layers are
    consecutive pieces of the checksum, [BLOCK_SEPARATE_LAYER1] and
    [BLOCK_SEPARATE_LAYER2 - BLOCK_SEPARATE_LAYER1] bytes long, that
    together are its first [BLOCK_SEPARATE_LAYER2] bytes, and the file
    name is the whole checksum followed by [BLK_SUFFIX]. *)
Theorem getBlockFilePath_bounds (volumeName checksum : string) :
  (getBlockFilePath volumeName checksum = None <->
   ~ (BLOCK_SEPARATE_LAYER1 <= BLOCK_SEPARATE_LAYER2 <= String.length checksum)) /\
  (BLOCK_SEPARATE_LAYER1 <= BLOCK_SEPARATE_LAYER2 <= String.length checksum ->
   exists layer1 layer2,
     getBlockFilePath volumeName checksum
       = Some (filepath_Join
                 [filepath_Join [getBlockPath volumeName; layer1; layer2];
                  (checksum ++ BLK_SUFFIX)%string]) /\
     String.length layer1 = BLOCK_SEPARATE_LAYER1 /\
     String.length layer2 = BLOCK_SEPARATE_LAYER2 - BLOCK_SEPARATE_LAYER1 /\
     (layer1 ++ layer2)%string = substring 0 BLOCK_SEPARATE_LAYER2 checksum /\
     String.prefix (layer1 ++ layer2)%string checksum = true).
Proof.
  unfold getBlockFilePath, slice. cbn [Nat.leb andb]. rewrite Nat.sub_0_r.
  destruct (le_lt_dec BLOCK_SEPARATE_LAYER1 BLOCK_SEPARATE_LAYER2) as [H12 | H12];
    destruct (le_lt_dec BLOCK_SEPARATE_LAYER2 (String.length checksum))
      as [H2 | H2].
  - (* in bounds *)
    rewrite (proj2 (Nat.leb_le _ _) (Nat.le_trans _ _ _ H12 H2)).
    rewrite (proj2 (Nat.leb_le _ _) H12), (proj2 (Nat.leb_le _ _) H2).
    cbn [andb]. split; [split; [discriminate | intros Hn; lia] |].
    intros _.
    exists (substring 0 BLOCK_SEPARATE_LAYER1 checksum),
      (substring BLOCK_SEPARATE_LAYER1
         (BLOCK_SEPARATE_LAYER2 - BLOCK_SEPARATE_LAYER1) checksum).
    split; [reflexivity |].
    split; [apply substring_length; lia |].
    split; [apply substring_length; lia |].
    assert (Hcat :
      (substring 0 BLOCK_SEPARATE_LAYER1 checksum
         ++ substring BLOCK_SEPARATE_LAYER1
              (BLOCK_SEPARATE_LAYER2 - BLOCK_SEPARATE_LAYER1) checksum)%string
      = substring 0 BLOCK_SEPARATE_LAYER2 checksum).
    { rewrite substring_split by lia. f_equal. lia. }
    split; [exact Hcat |]. rewrite Hcat. apply substring_prefix.
  - (* the checksum is too short *)
    rewrite (proj2 (Nat.leb_gt _ _) H2), andb_false_r.
    split; [split; [intros _; lia |] | intros; lia].
    intros _. destruct (_ <=? _)%nat; reflexivity.
  - (* the bounds are out of order *)
    rewrite (proj2 (Nat.leb_gt _ _) H12). cbn [andb].
    split; [split; [intros _; lia |] | intros; lia].
    intros _. destruct (_ <=? _)%nat; reflexivity.
  - rewrite (proj2 (Nat.leb_gt _ _) H12). cbn [andb].
    split; [split; [intros _; lia |] | intros; lia].
    intros _. destruct (_ <=? _)%nat; reflexivity.
Qed.

End Paths.

(** ** getBlockSizeFromParameters *)

Section BlockSize.

Context `{Quantities} `{External}.

Lemma getBlockSizeFromParameters_key (parameters : StringMap) :
  getBlockSizeFromParameters parameters =
  match block_size_parameter parameters with
  | None => (DEFAULT_BLOCK_SIZE, None)
  | Some sizeVal =>
    if (sizeVal =? "")%string then (DEFAULT_BLOCK_SIZE, None)
    else match ParseQuantity sizeVal with
         | Err err => (0%Z, Some (wrap_invalid_block_size err sizeVal))
         | Ok quantity =>
           if IsZero quantity then (DEFAULT_BLOCK_SIZE, None)
           else (Value quantity, None)
         end
  end.
Proof.
  unfold getBlockSizeFromParameters, block_size_parameter, map_index.
  destruct parameters as [m |]; [| reflexivity].
  destruct (m LonghornBackupParameterBackupBlockSize); reflexivity.
Qed.


End BlockSize.

Lemma readBlockWithRetry_bounded_witness :
  let w := world0 (mkScripted [Err timeout_err; Ok rc_gzip_1] (Err timeout_err)) in
  let evs := events_since w (snd (readBlockWithRetry "blk" w)) in
  read_attempts evs = 2 /\
  reads_of evs = ["blk"; "blk"] /\
  sleeps evs = [time.Second].
Proof.
  intros w evs.
  pose proof (readBlockWithRetry_bounded "blk" w eq_refl)
    as (_ & Hreads & Hsleeps & _).
  assert (Hn : read_attempts evs = 2) by (vm_compute; reflexivity).
  subst evs. rewrite Hn in Hreads, Hsleeps.
  split; [exact Hn |]. split; [exact Hreads | exact Hsleeps].
Defined.

Lemma DecompressAndVerifyWithFallback_effort_witness :
  let w := world0 (mkScripted [Err timeout_err; Ok rc_lz4_1; Ok rc_lz4_2]
                     (Err timeout_err)) in
  let evs := events_since w
               (snd (@DecompressAndVerifyWithFallback _ _ toyExternal
                       "blk" "gzip" "abc" w)) in
  List.length (acquired evs) <= 2 /\
  read_attempts evs <= 22 /\
  Forall (eq "blk") (reads_of evs).
Proof.
  intros w evs.
  pose proof (@DecompressAndVerifyWithFallback_effort _ _ toyExternal
                "blk" "gzip" "abc" w eq_refl)
    as (Ha & _ & _ & Hr & _ & _ & Hb & _).
  split; [exact Ha |]. split; [exact Hr | exact Hb].
Defined.

Lemma DecompressAndVerifyWithFallback_returns_verified_witness :
  let w := world0 (mkScripted [Ok rc_lz4_1; Ok rc_lz4_2] (Err timeout_err)) in
  let evs := events_since w
               (snd (@DecompressAndVerifyWithFallback _ _ toyExternal
                       "blk" "gzip" "abc" w)) in
  exists method rc,
    last (decompressions evs) ("gzip", mkReadCloser 0 "") = (method, rc) /\
    toyDecompressAndVerify method rc "abc" = Ok (mkReader "abc") /\
    In rc (closed evs).
Proof.
  intros w evs.
  assert (Hres : fst (@DecompressAndVerifyWithFallback _ _ toyExternal
                        "blk" "gzip" "abc" w) = Ok (mkReader "abc"))
    by (vm_compute; reflexivity).
  destruct (@DecompressAndVerifyWithFallback_returns_verified _ _ toyExternal
              "blk" "gzip" "abc" w (mkReader "abc") Hres)
    as (method & rc & Hlast & Hdv & _ & _ & Hclosed).
  exists method, rc. split; [exact Hlast |]. split; [exact Hdv | exact Hclosed].
Defined.

Lemma DecompressAndVerifyWithFallback_first_attempt_succeeds_witness :
  let w := world0 (mkScripted [Err timeout_err; Ok rc_gzip_1] (Err timeout_err)) in
  let out := @DecompressAndVerifyWithFallback _ _ toyExternal
               "blk" "gzip" "abc" w in
  fst out = Ok (mkReader "abc") /\
  observe w (snd out) = ([("gzip", rc_gzip_1)], [rc_gzip_1], [rc_gzip_1]) /\
  read_attempts (events_since w (snd out)) = 2.
Proof.
  intros w out.
  pose proof (@DecompressAndVerifyWithFallback_first_attempt_succeeds
                _ _ toyExternal "blk" "gzip" "abc" w
                (snd (readBlockWithRetry "blk" w)) rc_gzip_1 (mkReader "abc")
                eq_refl eq_refl)
    as (Hout & Hobs & _ & Hreads).
  split; [exact (f_equal fst Hout) |]. split; [exact Hobs | exact Hreads].
Defined.


Lemma mergeErrorChannels_closes_after_sources_witness :
  Permutation [err_a; err_b] (out_sent after_schedule_three) /\
  List.length (out_sent after_schedule_three) = 2.
Proof.
  assert (Hwf : forallb will_produce three_channels = true)
    by (vm_compute; reflexivity).
  assert (Hrun : run schedule_three (mergeErrorChannels false three_channels)
                 = Some after_schedule_three)
    by (vm_compute; reflexivity).
  exact (proj2 (mergeErrorChannels_closes_after_sources three_channels
                  schedule_three after_schedule_three Hwf Hrun eq_refl eq_refl)).
Defined.

Lemma mergeErrorChannels_completes_witness :
  exists more s',
    run ([EnvProduce 0; FwdRecv 0] ++ more)
      (mergeErrorChannels false [WillEmit err_a]) = Some s' /\
    out_closes s' = 1 /\
    Permutation [err_a] (delivered s').
Proof.
  assert (Hwf : forallb will_produce [WillEmit err_a] = true)
    by (vm_compute; reflexivity).
  assert (Hrun : run [EnvProduce 0; FwdRecv 0]
                   (mergeErrorChannels false [WillEmit err_a])
                 = Some (mkState false [mkLane Taken (AtSend err_a)] 1 AtWait 1
                           [] 0 [] false))
    by (vm_compute; reflexivity).
  destruct (mergeErrorChannels_completes false [WillEmit err_a]
              [EnvProduce 0; FwdRecv 0] _ Hwf Hrun)
    as (more & s' & Hall & _ & _ & _ & Hone & _ & Hperm).
  exists more, s'. split; [exact Hall |]. split; [exact Hone |].
  exact (Hperm eq_refl).
Defined.

Lemma getBlockFilePath_bounds_witness :
  @getBlockFilePath toyLayout "vol" "abc" = None /\
  @getBlockFilePath toyLayout "vol" "0a1b2c"
    = Some "volumes/vol/blocks//0a/1b/0a1b2c.blk".
Proof.
  split.
  - apply (proj2 (proj1 (@getBlockFilePath_bounds toyLayout "vol" "abc"))).
    simpl. lia.
  - destruct (proj2 (@getBlockFilePath_bounds toyLayout "vol" "0a1b2c"))
      as (layer1 & layer2 & _); [simpl; lia |].
    reflexivity.
Defined.


(** ** Classification and wrapping *)

Section Wrapping.

Context `{External}.

Lemma Contains_app_r (before s sub : string) :
  Contains s sub = true -> Contains (before ++ s)%string sub = true.
Proof.
  intros Hs. induction before as [| c before IH]; [exact Hs |].
  cbn [append Contains]. rewrite IH.
  destruct (String.prefix sub (String c (before ++ s))); reflexivity.
Qed.

(** X11: the classification survives wrapping.  The text of a
    wrapped error still holds every text its cause holds, so a
    failure that carries the gzip header text is classified "lz4"
    however often it was wrapped on its way up, and a failure that
    selects some alternative still selects one after wrapping. *)
Theorem alternativeDecompression_wrapped (err : error) (msg sub : string) :
  (Contains (Error err) sub = true ->
   Contains (Error (errWrap err msg)) sub = true) /\
  (alternativeDecompression err = "lz4" ->
   alternativeDecompression (errWrap err msg) = "lz4") /\
  (alternativeDecompression err <> "" ->
   alternativeDecompression (errWrap err msg) <> "").
Proof.
  assert (Hkeep : forall text,
             Contains (Error err) text = true ->
             Contains (Error (errWrap err msg)) text = true).
  { intros text Htext. unfold errWrap, Wrapf. cbn [Error].
    destruct (render [Lit msg] =? "")%string; [exact Htext |].
    apply Contains_app_r. apply (Contains_app_r ": "). exact Htext. }
  split; [apply Hkeep |].
  unfold alternativeDecompression.
  destruct (Contains (Error err) (Error gzip_ErrHeader)) eqn:Hgz.
  - rewrite (Hkeep _ Hgz). split; [reflexivity | discriminate].
  - destruct (Contains (Error err) "lz4: bad magic number") eqn:Hlz.
    + rewrite (Hkeep _ Hlz). split; [discriminate |]. intros _.
      destruct (Contains (Error (errWrap err msg)) (Error gzip_ErrHeader));
        discriminate.
    + split; [discriminate | congruence].
Qed.

End Wrapping.

Lemma alternativeDecompression_wrapped_witness :
  @alternativeDecompression toyExternal
    (errWrap (errNew "gzip: invalid header")
       "failed to get decompression reader with method gzip") = "lz4".
Proof.
  exact (proj1 (proj2 (@alternativeDecompression_wrapped toyExternal
                         (errNew "gzip: invalid header")
                         "failed to get decompression reader with method gzip"
                         ""))
           eq_refl).
Defined.
